(** * cardiotensor: orientation pipeline and streamline export

    A shallow embedding of
      - [cardiotensor/export/amira_writer.py]
        ([angle_between_vectors], [find_consecutive_points], [write_am_file],
         [amira_writer], [scale_points]) and
      - [cardiotensor/orientation/orientation_computation_pipeline.py]
        ([compute_orientation], [compute_slice_angles_and_anisotropy]).

    Number model.  NumPy's binary floating point is idealised:
      - quantities that go through [sqrt] or [arccos] are real numbers
        ([R]);
      - coordinates, step vectors and scale factors, on which the code only
        adds, multiplies, rounds and compares, are exact rationals ([Q]),
        so that the tracer runs inside Rocq;
      - NaN is [None] in an [option] around a component.
    Rounding error, overflow and infinities are outside the model. *)

From Stdlib Require Import ZArith QArith Qround Qabs Qreals Reals Lra Lia
  List Bool String Ascii DecimalString.
From Stdlib Require Lqa.
Import ListNotations.

(** ** Real vectors: [angle_between_vectors] *)

Record rvec : Type := RVec { r0 : R; r1 : R; r2 : R }.

Local Open Scope R_scope.

(** [np.sum(vec1 * vec2, axis=0)] *)
Definition dot_product (v w : rvec) : R :=
  r0 v * r0 w + r1 v * r1 w + r2 v * r2 w.

(** [np.linalg.norm(vec, axis=0)] *)
Definition magnitude (v : rvec) : R :=
  sqrt (r0 v * r0 v + r1 v * r1 v + r2 v * r2 v).

Definition rvec_opp (v : rvec) : rvec := RVec (- r0 v) (- r1 v) (- r2 v).

(** [epsilon = 1e-10] *)
Definition epsilon : R := / 10 ^ 10.

(** [np.maximum(magnitude, epsilon)] *)
Definition floored_magnitude (v : rvec) : R := Rmax (magnitude v) epsilon.

(** [np.clip(x, -1.0, 1.0)] *)
Definition clip (x lo hi : R) : R := Rmin (Rmax x lo) hi.

(** [cos_theta] of the source, after the clip. *)
Definition cos_theta (v w : rvec) : R :=
  clip (dot_product v w / (floored_magnitude v * floored_magnitude w)) (-1) 1.

(** [np.rad2deg] *)
Definition rad2deg (x : R) : R := x * (180 / PI).

Definition angle_between_vectors (vec1 vec2 : rvec) : R :=
  rad2deg (acos (cos_theta vec1 vec2)).

(** ** Rational points and NaN-carrying vectors *)

Local Close Scope R_scope.
Local Open Scope Z_scope.

(** A point or a step vector, (z, y, x), all components defined. *)
Definition point : Type := (Q * Q * Q)%type.

(** Integer voxel coordinates (z, y, x). *)
Definition voxel : Type := (Z * Z * Z)%type.

(** One entry [vector_field[:, z, y, x]]: a component is [None] when NaN. *)
Definition nvec : Type := (option Q * option Q * option Q)%type.

(** A vector field of shape (3, Z, Y, X): [shape1..shape3] are
    [vector_field.shape[1..3]]; [vf_at] is read inside the bounds only. *)
Record vector_field : Type := VectorField {
  shape1 : Z;
  shape2 : Z;
  shape3 : Z;
  vf_at : Z -> Z -> Z -> nvec
}.

(** [np.round]: to the nearest integer, ties to the even one. *)
Definition np_round (x : Q) : Z :=
  let f := Qfloor x in
  match Qcompare (x - inject_Z f) (1 # 2) with
  | Lt => f
  | Gt => f + 1
  | Eq => if Z.even f then f else f + 1
  end.

(** [int(x)] on a float: truncation toward zero. *)
Definition py_int (x : Q) : Z := Z.quot (Qnum x) (Zpos (Qden x)).

(** [tuple(float(coord) for coord in start_point)] *)
Definition float_point (p : voxel) : point :=
  let '(z, y, x) := p in (inject_Z z, inject_Z y, inject_Z x).

(** [map(int, np.round(p))] *)
Definition round_point (p : point) : voxel :=
  let '(z, y, x) := p in (np_round z, np_round y, np_round x).

(** [tuple(map(int, p))] *)
Definition int_point (p : point) : voxel :=
  let '(z, y, x) := p in (py_int z, py_int y, py_int x).

(** [0 <= z < shape[1] and 0 <= y < shape[2] and 0 <= x < shape[3]] *)
Definition in_bounds (vf : vector_field) (p : voxel) : bool :=
  let '(z, y, x) := p in
  (0 <=? z) && (z <? shape1 vf) &&
  ((0 <=? y) && (y <? shape2 vf)) &&
  ((0 <=? x) && (x <? shape3 vf)).

(** [vector_field[:, z, y, x]] *)
Definition vf_get (vf : vector_field) (p : voxel) : nvec :=
  let '(z, y, x) := p in vf_at vf z y x.

Definition nmul (a : option Q) (s : Q) : option Q :=
  match a with Some q => Some (q * s)%Q | None => None end.

(** [v * segment_length] on one field entry. *)
Definition nvec_scale (v : nvec) (s : Q) : nvec :=
  let '(a, b, c) := v in (nmul a s, nmul b s, nmul c s).

(** [np.isnan(v).any()] *)
Definition isnan_any (v : nvec) : bool :=
  match v with
  | (Some _, Some _, Some _) => false
  | _ => true
  end.

(** The components of an entry without NaN. *)
Definition defined (v : nvec) : option point :=
  match v with
  | (Some a, Some b, Some c) => Some (a, b, c)
  | _ => None
  end.

Definition point_add (p d : point) : point :=
  let '(z, y, x) := p in
  let '(dz, dy, dx) := d in ((z + dz)%Q, (y + dy)%Q, (x + dx)%Q).

Definition is_zero (q : Q) : bool := Qeq_bool q 0.

(** [direction_vector_tmp.any()]: [None] is the empty array
    [np.array([])] the loop starts with. *)
Definition tmp_any (t : option point) : bool :=
  match t with
  | None => false
  | Some (a, b, c) => negb (is_zero a && is_zero b && is_zero c)
  end.

Definition to_rvec (p : point) : rvec :=
  let '(a, b, c) := p in RVec (Q2R a) (Q2R b) (Q2R c).

(** [angle_between_vectors(a, b) > angle_threshold] *)
Definition angle_exceeds (a b : point) (angle_threshold : Q) : bool :=
  if Rlt_dec (Q2R angle_threshold)
             (angle_between_vectors (to_rvec a) (to_rvec b))
  then true else false.

(** [direction_vector_tmp.any()] and then
    [angle_between_vectors(direction_vector_tmp, direction_vector) >
    angle_threshold]: the test that breaks the loop on a sharp turn. *)
Definition angle_stop (direction_vector_tmp : option point)
    (direction_vector : point) (angle_threshold : Q) : bool :=
  tmp_any direction_vector_tmp &&
  match direction_vector_tmp with
  | Some tmp => angle_exceeds tmp direction_vector angle_threshold
  | None => false
  end.

(** ** The streamline tracer: [find_consecutive_points] *)

(** The variables the loop updates. *)
Record tracer_state : Type := TracerState {
  consecutive_points : list point;
  current_point : point;
  direction_vector_tmp : option point
}.

(** What one pass through the loop body ends in: the state the next pass
    starts from, or the state at a [break]. *)
Inductive pass : Type :=
| Next (st : tracer_state)
| Break (st : tracer_state).

Definition trace_step (vf : vector_field) (segment_length angle_threshold : Q)
    (st : tracer_state) : pass :=
  let zyx := round_point (current_point st) in
  if in_bounds vf zyx then
    let direction_vector := nvec_scale (vf_get vf zyx) segment_length in
    match defined direction_vector with
    | None => Break st
    | Some dv =>
      if angle_stop (direction_vector_tmp st) dv angle_threshold
      then Break st
      else
        let next_point := point_add (current_point st) dv in
        let next_point_int := round_point next_point in
        if in_bounds vf next_point_int then
          Next (TracerState
                  (consecutive_points st ++ [next_point])
                  (float_point (int_point next_point))
                  (Some dv))
        else Break st
    end
  else Break st.

(** [for _ in range(num_steps)] *)
Fixpoint trace_loop (vf : vector_field) (segment_length angle_threshold : Q)
    (num_steps : nat) (st : tracer_state) : tracer_state :=
  match num_steps with
  | O => st
  | S n =>
    match trace_step vf segment_length angle_threshold st with
    | Next st' => trace_loop vf segment_length angle_threshold n st'
    | Break st' => st'
    end
  end.

Definition initial_state (start_point : voxel) : tracer_state :=
  TracerState [float_point start_point] (float_point start_point) None.

(** The step vector read at the voxel a position rounds to, when it has
    no NaN. *)
Definition step_vector (vf : vector_field) (segment_length : Q) (p : point)
    : option point :=
  defined (nvec_scale (vf_get vf (round_point p)) segment_length).

Definition find_consecutive_points (start_point : voxel) (vf : vector_field)
    (num_steps : nat) (segment_length angle_threshold : Q) : list point :=
  consecutive_points
    (trace_loop vf segment_length angle_threshold num_steps
       (initial_state start_point)).

(** ** [scale_points] *)

Definition scale_point (pixel_size : Q) (p : point) : point :=
  let '(a, b, c) := p in
  ((a * pixel_size)%Q, (b * pixel_size)%Q, (c * pixel_size)%Q).

(** The outer loop appends one scaled list per input list; the inner list
    comprehension is a [map]. *)
Definition scale_points (consecutive_points : list (list point))
    (pixel_size : Q) : list (list point) :=
  fold_left
    (fun scaled_points point_list =>
       scaled_points ++ [map (scale_point pixel_size) point_list])
    consecutive_points [].

(** ** Text output *)

Local Open Scope string_scope.

(** The line feed written for [\n]. *)
Definition nl : string := String (ascii_of_nat 10) EmptyString.

(** The double quote character. *)
Definition dquote : string := String (ascii_of_nat 34) EmptyString.

(** [str] of a Python [int], as an f-string field prints it. *)
Definition str_int (z : Z) : string :=
  DecimalString.NilZero.string_of_int (Z.to_int z).

(** [s * n] on a string. *)
Fixpoint str_repeat (s : string) (n : nat) : string :=
  match n with
  | O => EmptyString
  | S k => s ++ str_repeat s k
  end.

(** [f.write(s)] on the text written so far. *)
Definition write (f s : string) : string := f ++ s.

(** [sequence[-1]]; the default is never read on a list of two or more. *)
Definition last_point (segment : list point) : point :=
  last segment (0%Q, 0%Q, 0%Q).

(** [sequence[0]] *)
Definition first_point (segment : list point) : point :=
  hd (0%Q, 0%Q, 0%Q) segment.

(** [range(n)] *)
Definition range (n : nat) : list Z := map Z.of_nat (seq 0 n).

(** [sum(len(segment) for segment in consecutive_points_list)] *)
Definition count_points (consecutive_points_list : list (list point)) : nat :=
  fold_left (fun acc segment => (acc + List.length segment)%nat)
    consecutive_points_list 0%nat.

Section AmiraMesh.

(** How Python prints a float in an f-string field ([repr]), for a
    coordinate or helix angle and for a z-angle.  The printing of floats
    is not part of the repository. *)
Variable A : Type.
Variable float_str : Q -> string.
Variable angle_str : A -> string.

(** [f"{p[0]} {p[1]} {p[2]}\n"] *)
Definition point_line (p : point) : string :=
  let '(a, b, c) := p in
  float_str a ++ " " ++ float_str b ++ " " ++ float_str c ++ nl.

(** The text of the file [write_am_file] writes, in the order of its
    [f.write] calls. *)
Definition write_am_file (consecutive_points_list : list (list point))
    (HA_angle : list Q) (z_angle : list A) : string :=
  let N_point := count_points consecutive_points_list in
  let f := EmptyString in
  let f := write f ("# AmiraMesh 3D ASCII 3.0" ++ nl ++ nl ++ nl) in
  let f := write f ("define VERTEX " ++
    str_int (Z.of_nat (List.length consecutive_points_list) * 2) ++ nl) in
  let f := write f ("define EDGE " ++
    str_int (Z.of_nat (List.length consecutive_points_list)) ++ nl) in
  let f := write f ("define POINT " ++ str_int (Z.of_nat N_point) ++ nl) in
  let f := write f (nl ++ "Parameters {" ++ nl ++ "    ContentType " ++
    dquote ++ "HxSpatialGraph" ++ dquote ++ nl ++ "}" ++ nl ++ nl) in
  let f := write f ("VERTEX { float[3] VertexCoordinates } @1" ++ nl) in
  let f := write f ("EDGE { int[2] EdgeConnectivity } @2" ++ nl) in
  let f := write f ("EDGE { int NumEdgePoints } @3" ++ nl) in
  let f := write f ("POINT { float[3] EdgePointCoordinates } @4" ++ nl) in
  let f := write f ("POINT { float thickness } @5" ++ nl) in
  let f := write f ("POINT { float HA_angle } @6" ++ nl) in
  let f := write f ("POINT { float z_angle } @7" ++ nl) in
  let f := write f (nl ++ "# Data section follows" ++ nl) in
  (* vertex data *)
  let f := write f ("@1" ++ nl) in
  let f := fold_left
    (fun f segment =>
       if (2 <=? List.length segment)%nat then
         let f := write f (point_line (first_point segment)) in
         write f (point_line (last_point segment))
       else f)
    consecutive_points_list f in
  (* edges *)
  let f := write f (nl ++ "@2" ++ nl) in
  let f := fold_left
    (fun f i => write f (str_int (i * 2) ++ " " ++ str_int (i * 2 + 1) ++ nl))
    (range (List.length consecutive_points_list)) f in
  (* number of points per edge *)
  let f := write f (nl ++ "@3" ++ nl) in
  let f := fold_left
    (fun f segment => write f (str_int (Z.of_nat (List.length segment)) ++ nl))
    consecutive_points_list f in
  (* edge point coordinates *)
  let f := write f (nl ++ "@4" ++ nl) in
  let f := fold_left
    (fun f segment =>
       fold_left (fun f p => write f (point_line p)) segment f)
    consecutive_points_list f in
  (* thickness *)
  let f := write f (nl ++ "@5" ++ nl) in
  let f := fold_left
    (fun f segment => write f (str_repeat ("1.0" ++ nl) (List.length segment)))
    consecutive_points_list f in
  (* helix angles *)
  let f := write f (nl ++ "@6" ++ nl) in
  let f := fold_left (fun f angle => write f (float_str angle ++ nl))
    HA_angle f in
  (* z-axis angles *)
  let f := write f (nl ++ "@7" ++ nl) in
  let f := fold_left (fun f angle => write f (angle_str angle ++ nl))
    z_angle f in
  f.

End AmiraMesh.

Local Close Scope string_scope.

(** ** [amira_writer], from the loaded vector field on *)

(** How a run ends: one of the [sys.exit] calls ([sys.exit(1)] or
    [sys.exit(message)], both status 1, nothing returned), or the normal
    end with its result. *)
Inductive exit_reason : Type :=
| ParameterFileError        (* the parameter file could not be read *)
| MissingEigenVectorFiles   (* no [*.npy] file under [eigen_vec] *)
| InsufficientValidPoints.  (* fewer valid voxels than seeds asked for *)

Inductive outcome (T : Type) : Type :=
| Exit (reason : exit_reason)
| Done (result : T).
Arguments Exit {T} reason.
Arguments Done {T} result.


Definition Qgt_bool (a b : Q) : bool := negb (Qle_bool a b).

(** [vector_field[:, vector_field[0] > 0] *= -1] on one entry; a NaN first
    component compares false. *)
Definition flip_entry (v : nvec) : nvec :=
  let '(a, b, c) := v in
  match a with
  | Some q =>
    if Qgt_bool q 0
    then (nmul a (-1), nmul b (-1), nmul c (-1))
    else v
  | None => v
  end.

Definition align_vectors (vf : vector_field) : vector_field :=
  VectorField (shape1 vf) (shape2 vf) (shape3 vf)
    (fun z y x => flip_entry (vf_at vf z y x)).

(** [(~np.isnan(vector_field).any(axis=0)).astype(np.uint8)] *)
Definition mask_volume (vf : vector_field) (p : voxel) : Z :=
  if isnan_any (vf_get vf p) then 0 else 1.

(** All indices of a (Z, Y, X) array in row-major order. *)
Definition all_voxels (vf : vector_field) : list voxel :=
  flat_map (fun z =>
    flat_map (fun y =>
      map (fun x => (z, y, x)) (range (Z.to_nat (shape3 vf))))
      (range (Z.to_nat (shape2 vf))))
    (range (Z.to_nat (shape1 vf))).

(** [np.argwhere(mask_volume == 1)] *)
Definition valid_indices (vf : vector_field) : list voxel :=
  filter (fun p => mask_volume vf p =? 1) (all_voxels vf).

(** [(point[0] + start_index, point[1], point[2])] *)
Definition shift_point (start_index : Z) (p : point) : point :=
  let '(z, y, x) := p in ((z + inject_Z start_index)%Q, y, x).

(** [(int(point[0] - start_index), int(point[1]), int(point[2]))] *)
Definition point_index (start_index : Z) (p : point) : voxel :=
  let '(z, y, x) := p in
  (py_int (z - inject_Z start_index)%Q, py_int y, py_int x).

(** [np.degrees(np.arccos(abs(vector[0]) / np.linalg.norm(vector)))];
    NaN when a component is NaN or the vector is zero (0/0). *)
Definition z_angle_of (v : nvec) : option R :=
  match defined v with
  | None => None
  | Some (a, b, c) =>
    let n := magnitude (to_rvec (a, b, c)) in
    if Req_dec_T n 0 then None
    else Some (rad2deg (acos (Rabs (Q2R a) / n)))
  end.

(** [(point[2], point[1], point[0])] *)
Definition reorder_point (p : point) : point :=
  let '(z, y, x) := p in (x, y, z).

(** What [read_conf_file] returns, as far as the numbers go: the other
    keys only name the files that are read. *)
Record parameters : Type := Parameters { conf_VOXEL_SIZE : Q }.

Section AmiraWriter.

(** [choice n k] is the draw [np.random.choice(n, k, replace=False)]
    returns; [HA_volume] is the helix-angle volume the data reader loads;
    [float_str] and [angle_str] print floats.  None of them is code of
    the repository. *)
Variable choice : nat -> nat -> list nat.
Variable HA_volume : Z -> Z -> Z -> Q.
Variable float_str : Q -> string.
Variable angle_str : option R -> string.

(** [valid_indices[np.random.choice(valid_indices.shape[0],
    num_ini_points, replace=False)]] behind the size test. *)
Definition random_points (vf : vector_field) (num_ini_points : nat)
    : outcome (list voxel) :=
  let valid := valid_indices vf in
  if (List.length valid <? num_ini_points)%nat
  then Exit InsufficientValidPoints
  else Done (map (fun i => nth i valid (0, 0, 0))
               (choice (List.length valid) num_ini_points)).

(** The loop over the seeds: trace, shift by [start_index], keep the
    polylines of at least [segment_min_length_threshold] points. *)
Definition trace_seeds (vf : vector_field) (start_index : Z)
    (num_steps : nat) (segment_length angle_threshold : Q)
    (segment_min_length_threshold : Z) (seeds : list voxel)
    : list (list point) :=
  fold_left
    (fun consecutive_points_list seed =>
       let consecutive_points :=
         find_consecutive_points seed vf num_steps segment_length
           angle_threshold in
       let consecutive_points :=
         map (shift_point start_index) consecutive_points in
       if segment_min_length_threshold <=?
            Z.of_nat (List.length consecutive_points)
       then consecutive_points_list ++ [consecutive_points]
       else consecutive_points_list)
    seeds [].

Definition HA_angles (start_index : Z) (cpl : list (list point)) : list Q :=
  flat_map
    (map (fun p => let '(z, y, x) := point_index start_index p in
                   HA_volume z y x))
    cpl.

Definition z_angles (vf : vector_field) (start_index : Z)
    (cpl : list (list point)) : list (option R) :=
  flat_map
    (map (fun p => z_angle_of (vf_get vf (point_index start_index p))))
    cpl.

(** [params] is what [read_conf_file] gives, [None] when it raises;
    [npy_files] is [list(output_npy.glob("*.npy"))]; [vector_field] is the
    field the data reader loads, moved to (3, Z, Y, X).  The result is the
    text written to [output.am]. *)
Definition amira_writer (params : option parameters)
    (npy_files : list string) (vector_field : vector_field)
    (start_index : option Z) (bin_factor : option Z)
    (num_ini_points num_steps : nat) (segment_length angle_threshold : Q)
    (segment_min_length_threshold : Z) : outcome string :=
  let start_index :=
    match start_index with Some i => i | None => 0 end in
  match params with
  | None => Exit ParameterFileError
  | Some params =>
    let VOXEL_SIZE := conf_VOXEL_SIZE params in
    match npy_files with
    | [] => Exit MissingEigenVectorFiles
    | _ :: _ =>
      let start_index :=
        match bin_factor with
        | Some b => if b =? 0 then start_index
                    else py_int (inject_Z start_index / inject_Z b)%Q
        | None => start_index
        end in
      let vector_field := align_vectors vector_field in
      match random_points vector_field num_ini_points with
      | Exit reason => Exit reason
      | Done seeds =>
        let consecutive_points_list :=
          trace_seeds vector_field start_index num_steps segment_length
            angle_threshold segment_min_length_threshold seeds in
        let HA_angle := HA_angles start_index consecutive_points_list in
        let z_angle := z_angles vector_field start_index
                         consecutive_points_list in
        let VOXEL_SIZE :=
          match bin_factor with
          | Some b => if b =? 0 then VOXEL_SIZE
                      else (VOXEL_SIZE * inject_Z b)%Q
          | None => VOXEL_SIZE
          end in
        let consecutive_points_list :=
          scale_points consecutive_points_list VOXEL_SIZE in
        let consecutive_points_list :=
          map (map reorder_point) consecutive_points_list in
        Done (write_am_file (option R) float_str angle_str
                consecutive_points_list HA_angle z_angle)
      end
    end
  end.

End AmiraWriter.

(** ** [compute_orientation]: from padding removal to the dispatch *)

(** One eigenvector [vec[:, z, y, x]] over the reals, NaN as [None]. *)
Definition rnvec : Type := (option R * option R * option R)%type.

(** The eigenvector array of shape (3, Z, Y, X): Z slices of Y rows of X
    vectors. *)
Definition field : Type := list (list (list rnvec)).

(** Modelled from the spec: [remove_padding] lives in
    [orientation_computation_functions], which is not among the sources.
    The spec makes it a pure crop along Z: the output has
    [padding_start + padding_end] slices fewer than the input, and the
    slices that stay are those after the first [padding_start]. *)
Definition remove_padding {T : Type} (a : list T)
    (padding_start padding_end : nat) : list T :=
  firstn (List.length a - padding_start - padding_end)
    (skipn padding_start a).

(** [vec / np.linalg.norm(vec, axis=0)] on one vector: a NaN component
    makes the norm NaN, and a zero vector is 0/0; both give NaN
    throughout. *)
Definition normalize (v : rnvec) : rnvec :=
  match v with
  | (Some a, Some b, Some c) =>
    let vec_norm := sqrt (a * a + b * b + c * c)%R in
    if Req_dec_T vec_norm 0 then (None, None, None)
    else (Some (a / vec_norm)%R, Some (b / vec_norm)%R,
          Some (c / vec_norm)%R)
  | _ => (None, None, None)
  end.

(** The vector slices [vec[:, z, :, :]] handed to
    [compute_slice_angles_and_anisotropy], for [z] in
    [range(vec.shape[1])]: padding removed, then normalized.  The
    statements that would flip the sign are commented out in the source
    and so absent here. *)
Definition dispatched_slices (vec : field) (padding_start padding_end : nat)
    : list (nat * list (list rnvec)) :=
  let vec := remove_padding vec padding_start padding_end in
  let vec := map (map (map normalize)) vec in
  combine (seq 0 (List.length vec)) vec.

(** [vec[:, z, y, x]] when the indices are in range. *)
Definition field_at (vec : field) (z y x : nat) : option rnvec :=
  match nth_error vec z with
  | Some slice =>
    match nth_error slice y with
    | Some row => nth_error row x
    | None => None
    end
  | None => None
  end.

(** The vector at (y, x) of the slice dispatched as task [z]. *)
Definition dispatched_at (vec : field) (padding_start padding_end : nat)
    (z y x : nat) : option rnvec :=
  match nth_error (dispatched_slices vec padding_start padding_end) z with
  | Some (_, slice) =>
    match nth_error slice y with
    | Some row => nth_error row x
    | None => None
    end
  | None => None
  end.

(** ** [angle_between_vectors] on vectors that may hold NaN *)

(** A NumPy operation on one or two floats: NaN in, NaN out.  This is how
    [*], [/], [np.sum], [np.linalg.norm], [np.maximum], [np.clip],
    [np.arccos] and [np.rad2deg] treat NaN. *)
Definition nan_map (f : R -> R) (x : option R) : option R :=
  match x with
  | Some a => Some (f a)
  | None => None
  end.

Definition nan_map2 (f : R -> R -> R) (x y : option R) : option R :=
  match x, y with
  | Some a, Some b => Some (f a b)
  | _, _ => None
  end.

(** The vector as real numbers when no component is NaN. *)
Definition real_vector (v : rnvec) : option rvec :=
  match v with
  | (Some a, Some b, Some c) => Some (RVec a b c)
  | _ => None
  end.

(** [angle_between_vectors], statement by statement, on two vectors whose
    components may be NaN. *)
Definition angle_between_vectors_nan (vec1 vec2 : rnvec) : option R :=
  let '(a0, a1, a2) := vec1 in
  let '(b0, b1, b2) := vec2 in
  let sum x y z := nan_map2 Rplus (nan_map2 Rplus x y) z in
  let norm x y z :=
    nan_map sqrt
      (sum (nan_map2 Rmult x x) (nan_map2 Rmult y y) (nan_map2 Rmult z z)) in
  let dot_product :=
    sum (nan_map2 Rmult a0 b0) (nan_map2 Rmult a1 b1)
      (nan_map2 Rmult a2 b2) in
  let magnitude_vec1 := norm a0 a1 a2 in
  let magnitude_vec2 := norm b0 b1 b2 in
  let magnitude_vec1 := nan_map2 Rmax magnitude_vec1 (Some epsilon) in
  let magnitude_vec2 := nan_map2 Rmax magnitude_vec2 (Some epsilon) in
  let cos_theta :=
    nan_map2 Rdiv dot_product
      (nan_map2 Rmult magnitude_vec1 magnitude_vec2) in
  let cos_theta := nan_map (fun c => clip c (-1) 1) cos_theta in
  nan_map rad2deg (nan_map acos cos_theta).

(** ** [compute_slice_angles_and_anisotropy] *)

Local Open Scope string_scope.

(** [f"{n:06d}"]: zero padding to width 6, the sign counted in the width. *)
Definition fmt_06d (n : Z) : string :=
  let digits := str_int (Z.abs n) in
  let sign := if (n <? 0)%Z then "-" else EmptyString in
  sign ++
  str_repeat "0" (6 - String.length sign - String.length digits)%nat ++
  digits.

Definition HA_path (OUTPUT_DIR : string) (idx : Z) : string :=
  OUTPUT_DIR ++ "/HA/HA_" ++ fmt_06d idx ++ ".tif".

Definition IA_path (OUTPUT_DIR : string) (idx : Z) : string :=
  OUTPUT_DIR ++ "/IA/IA_" ++ fmt_06d idx ++ ".tif".

Definition FA_path (OUTPUT_DIR : string) (idx : Z) : string :=
  OUTPUT_DIR ++ "/FA/FA_" ++ fmt_06d idx ++ ".tif".

(** The per-slice eigenvector file, as [compute_orientation] names it in
    its resume test. *)
Definition eigen_vec_path (OUTPUT_DIR : string) (idx : Z) : string :=
  OUTPUT_DIR ++ "/eigen_vec/eigen_vec_" ++ fmt_06d idx ++ ".npy".

Local Close Scope string_scope.

Section SliceAngles.

(** The state a call acts on: the file system and whatever else the
    helpers touch (figures, logs). *)
Variable world : Type.

(** A computation that may read and change the world. *)
Definition io (T : Type) : Type := world -> T * world.

Definition ret {T : Type} (t : T) : io T := fun w => (t, w).

Definition bind {T U : Type} (m : io T) (k : T -> io U) : io U :=
  fun w => let (t, w') := m w in k t w'.

Notation "x <- m ;; k" := (bind m (fun x => k))
  (at level 61, m at next level, right associativity).
Notation "m ;;; k" := (bind m (fun _ => k))
  (at level 61, right associativity).

(** [os.path.exists]: a read of the world. *)
Variable path_exists : world -> string -> bool.

(** The arrays handed around; their contents play no part here. *)
Variables vector_slice image eigen_slice center : Type.

(** The helpers imported from [orientation_computation_functions], which
    is not among the sources: each is a call that may act on the world in
    any way. *)
Variable compute_fraction_anisotropy : eigen_slice -> io image.
Variable rotate_vectors_to_new_axis : vector_slice -> center -> io vector_slice.
Variable compute_helix_and_transverse_angles :
  vector_slice -> center -> io (image * image).
Variable plot_images : image -> image -> image -> image -> center -> io unit.
Variable write_images :
  image -> image -> image -> Z -> string -> string -> string -> Z -> io unit.
Variable write_vector_field : vector_slice -> Z -> string -> Z -> io unit.

Definition compute_slice_angles_and_anisotropy
    (z : Z) (vector_field_slice : vector_slice) (img_slice : image)
    (center_point : center) (eigen_val_slice : eigen_slice)
    (center_vec : center)
    (OUTPUT_DIR OUTPUT_FORMAT OUTPUT_TYPE : string) (start_index : Z)
    (IS_VECTORS IS_TEST : bool) : io unit :=
  fun w =>
  let paths :=
    [HA_path OUTPUT_DIR (start_index + z);
     IA_path OUTPUT_DIR (start_index + z);
     FA_path OUTPUT_DIR (start_index + z)] in
  if negb IS_TEST && forallb (path_exists w) paths then
    ret tt w
  else
    (img_FA <- compute_fraction_anisotropy eigen_val_slice ;;
     vector_field_slice_rotated <-
       rotate_vectors_to_new_axis vector_field_slice center_vec ;;
     angles <- compute_helix_and_transverse_angles
                 vector_field_slice_rotated center_point ;;
     let (img_helix, img_intrusion) := angles : image * image in
     if IS_TEST then
       plot_images img_slice img_helix img_intrusion img_FA center_point
     else
       write_images img_helix img_intrusion img_FA start_index
         OUTPUT_DIR OUTPUT_FORMAT OUTPUT_TYPE z ;;;
       if IS_VECTORS then
         write_vector_field vector_field_slice start_index OUTPUT_DIR z
       else ret tt) w.

End SliceAngles.

(** ** [compute_orientation]: the resume test, the padding, the mask window *)

(** [range(start, stop)] *)
Definition range_from (start stop : Z) : list Z :=
  map (fun i => (start + Z.of_nat i)%Z) (seq 0 (Z.to_nat (stop - start))).

Section ResumeTest.

Variable world : Type.
Variable path_exists : world -> string -> bool.

(** The condition tested on each pass of the loop: one of the four files
    of slice [idx] is not there. *)
Definition slice_output_missing (w : world) (OUTPUT_DIR : string) (idx : Z)
    : bool :=
  negb (path_exists w (HA_path OUTPUT_DIR idx)) ||
  negb (path_exists w (IA_path OUTPUT_DIR idx)) ||
  negb (path_exists w (FA_path OUTPUT_DIR idx)) ||
  negb (path_exists w (eigen_vec_path OUTPUT_DIR idx)).

(** The [for] loop with its [break], on the flag it may clear. *)
Fixpoint scan_slices (w : world) (OUTPUT_DIR : string) (indices : list Z)
    (is_already_done : bool) : bool :=
  match indices with
  | [] => is_already_done
  | idx :: rest =>
    if slice_output_missing w OUTPUT_DIR idx then false
    else scan_slices w OUTPUT_DIR rest is_already_done
  end.

(** The flag [is_already_done] after the loop. *)
Definition is_already_done (w : world) (OUTPUT_DIR : string)
    (start_index end_index : Z) : bool :=
  let is_already_done := true in
  let is_already_done :=
    if (end_index =? 0)%Z then false else is_already_done in
  scan_slices w OUTPUT_DIR (range_from start_index end_index)
    is_already_done.

(** Whether [compute_orientation] returns on "All images are already
    done", before anything is read or computed. *)
Definition returns_already_done (IS_TEST : bool) (w : world)
    (OUTPUT_DIR : string) (start_index end_index : Z) : bool :=
  if negb IS_TEST then is_already_done w OUTPUT_DIR start_index end_index
  else false.

End ResumeTest.

(** [padding_start] and [padding_end] as they stand before
    [adjust_start_end_index] is called; [None] is the exit on
    [N_SLICE_TEST > N_img] in test mode. *)
Definition padding (RHO : Q) (IS_TEST : bool)
    (N_SLICE_TEST start_index end_index N_img : Z) : option (Z * Z) :=
  let padding_start := Qceiling RHO in
  let padding_end := Qceiling RHO in
  let padding_start :=
    if negb IS_TEST && (padding_start >? start_index)%Z
    then start_index else padding_start in
  let padding_end :=
    if negb IS_TEST && (padding_end >? N_img - end_index)%Z
    then (N_img - end_index)%Z else padding_end in
  if IS_TEST && (N_SLICE_TEST >? N_img)%Z then None
  else Some (padding_start, padding_end).

(** The slices of the mask that are loaded and where the volume starts in
    the upscaled mask: [start_index_padded_mask], [end_index_padded_mask]
    and [start_index_mask_upscaled], for a mask of [N_mask] images. *)
Definition mask_window (N_img N_mask start_index_padded end_index_padded : Z)
    : Z * Z * Z :=
  let binning_factor := (inject_Z N_img / inject_Z N_mask)%Q in
  let start_index_padded_mask :=
    py_int (inject_Z start_index_padded / binning_factor - 1)%Q in
  let start_index_padded_mask :=
    if (start_index_padded_mask <? 0)%Z then 0%Z
    else start_index_padded_mask in
  let end_index_padded_mask :=
    py_int (inject_Z end_index_padded / binning_factor + 1)%Q in
  let end_index_padded_mask :=
    if (end_index_padded_mask >? N_mask)%Z then N_mask
    else end_index_padded_mask in
  let start_index_mask_upscaled :=
    py_int (Qabs (inject_Z start_index_padded_mask * binning_factor -
                  inject_Z start_index_padded))%Q in
  (start_index_padded_mask, end_index_padded_mask,
   start_index_mask_upscaled).

(** ** Notions the properties are stated with *)

(** Two points hold the same numbers (fractions need not be reduced). *)
Definition point_eq (p q : point) : Prop :=
  let '(a, b, c) := p in
  let '(a', b', c') := q in
  (a == a')%Q /\ (b == b')%Q /\ (c == c')%Q.










(** What the loop keeps true from a seed whose vector is zero: the current
    position is the seed, every recorded point equals it, and the
    previous step vector, if any, is zero. *)
Definition resting (seed : voxel) (st : tracer_state) : Prop :=
  current_point st = float_point seed /\
  Forall (point_eq (float_point seed)) (consecutive_points st) /\
  tmp_any (direction_vector_tmp st) = false.

(** What [np.random.choice(n, k, replace=False)] promises when [k <= n]:
    [k] indices below [n], none of them twice. *)
Definition choice_without_replacement (choice : nat -> nat -> list nat)
    : Prop :=
  forall n k, (k <= n)%nat ->
    List.length (choice n k) = k /\
    NoDup (choice n k) /\
    Forall (fun i => (i < n)%nat) (choice n k).

(** A voxel of the volume whose vector has no NaN component. *)
Definition valid_voxel (vf : vector_field) (p : voxel) : Prop :=
  in_bounds vf p = true /\ isnan_any (vf_get vf p) = false.

(** The strings of a list one after the other. *)
Definition str_concat (l : list string) : string :=
  fold_right String.append EmptyString l.

(** ** Inputs used in the examples below *)

(** A single row of five voxels, every vector (0, 0, -1). *)
Definition row_field : vector_field :=
  VectorField 1 1 5 (fun _ _ _ => (Some 0%Q, Some 0%Q, Some (-1)%Q)).

(** The same row, with NaN vectors at every index outside of it. *)
Definition row_field_nan_outside : vector_field :=
  VectorField 1 1 5
    (fun z y x =>
       if ((z =? 0) && (y =? 0) && (0 <=? x) && (x <? 5))%Z
       then (Some 0%Q, Some 0%Q, Some (-1)%Q)
       else (None, None, None)).

(** One possible draw: the first [k] indices. *)
Definition first_indices (n k : nat) : list nat := seq 0 k.

(** Three slices of one voxel each, the outer two NaN padding, the middle
    one the vector (1, 0, 0). *)
Definition padded_field : field :=
  [ [[(None, None, None)]];
    [[(Some 1%R, Some 0%R, Some 0%R)]];
    [[(None, None, None)]] ].

(** A world that is the list of the paths that exist, with a helper that
    leaves a mark in it whenever it is called. *)
Definition listed (w : list string) (path : string) : bool :=
  existsb (String.eqb path) w.

Definition mark {T U : Type} (name : string) (result : U) (_ : T)
    : list string -> U * list string :=
  fun w => (result, name :: w).

(** The artifacts of slice 5 under the directory [out]. *)
Definition slice_5_done : list string :=
  [ "out/HA/HA_000005.tif"; "out/IA/IA_000005.tif";
    "out/FA/FA_000005.tif"; "out/eigen_vec/eigen_vec_000005.npy" ]%string.

(** The artifacts of slice 5 under [out] when the images are written as
    JPEG 2000 ([OUTPUT_FORMAT] jp2), the eigenvector file with them. *)
Definition slice_5_done_jp2 : list string :=
  [ "out/HA/HA_000005.jp2"; "out/IA/IA_000005.jp2";
    "out/FA/FA_000005.jp2"; "out/eigen_vec/eigen_vec_000005.npy" ]%string.

(** * Part II: properties *)

Local Open Scope R_scope.

(** ** Facts on [angle_between_vectors] *)

Lemma epsilon_pos : 0 < epsilon.
Proof. unfold epsilon. apply Rinv_0_lt_compat. lra. Qed.

Lemma epsilon_lt_1 : epsilon < 1.
Proof.
  assert (H : / 10 ^ 10 < / 1) by (apply Rinv_lt_contravar; lra).
  rewrite Rinv_1 in H. exact H.
Qed.

Lemma floored_magnitude_ge_eps (v : rvec) : epsilon <= floored_magnitude v.
Proof. apply Rmax_r. Qed.

Lemma floored_magnitude_pos (v : rvec) : 0 < floored_magnitude v.
Proof.
  pose proof epsilon_pos. pose proof (floored_magnitude_ge_eps v). lra.
Qed.

Lemma clip_bounds (x : R) : -1 <= clip x (-1) 1 <= 1.
Proof.
  unfold clip. split.
  - apply Rmin_glb; [apply Rmax_r | lra].
  - apply Rmin_r.
Qed.

Lemma clip_id (x : R) : -1 <= x <= 1 -> clip x (-1) 1 = x.
Proof.
  intros [Hl Hu]. unfold clip.
  rewrite Rmax_left by assumption. now rewrite Rmin_left.
Qed.

Lemma rad2deg_0 : rad2deg 0 = 0.
Proof. unfold rad2deg. lra. Qed.

Lemma rad2deg_PI : rad2deg PI = 180.
Proof. unfold rad2deg. pose proof PI_RGT_0. field. lra. Qed.

Lemma rad2deg_mono (x y : R) : x <= y -> rad2deg x <= rad2deg y.
Proof.
  intros H. unfold rad2deg.
  apply Rmult_le_compat_r; [|assumption].
  pose proof PI_RGT_0. apply Rlt_le, Rdiv_lt_0_compat; lra.
Qed.

Lemma angle_bounds (v w : rvec) : 0 <= angle_between_vectors v w <= 180.
Proof.
  unfold angle_between_vectors.
  destruct (acos_bound (cos_theta v w)) as [Hl Hu].
  rewrite <- rad2deg_0 at 1. rewrite <- rad2deg_PI.
  split; now apply rad2deg_mono.
Qed.

Lemma magnitude_sqr (v : rvec) :
  magnitude v * magnitude v = dot_product v v.
Proof.
  unfold magnitude, dot_product. apply sqrt_sqrt. nra.
Qed.

Lemma magnitude_opp (v : rvec) : magnitude (rvec_opp v) = magnitude v.
Proof. unfold magnitude, rvec_opp. simpl. f_equal. ring. Qed.

Lemma dot_product_opp_r (v w : rvec) :
  dot_product v (rvec_opp w) = - dot_product v w.
Proof. unfold dot_product, rvec_opp. simpl. ring. Qed.

(** A vector whose magnitude reaches the floor makes angle 0 with itself. *)
Lemma angle_self (v : rvec) :
  epsilon <= magnitude v -> angle_between_vectors v v = 0.
Proof.
  intros H. unfold angle_between_vectors, cos_theta, floored_magnitude.
  rewrite Rmax_left by assumption.
  rewrite <- magnitude_sqr.
  pose proof epsilon_pos.
  replace (magnitude v * magnitude v / (magnitude v * magnitude v)) with 1
    by (field; lra).
  rewrite clip_id by lra. rewrite acos_1. apply rad2deg_0.
Qed.

Lemma angle_self_opp (v : rvec) :
  epsilon <= magnitude v -> angle_between_vectors v (rvec_opp v) = 180.
Proof.
  intros H. unfold angle_between_vectors, cos_theta, floored_magnitude.
  rewrite magnitude_opp, dot_product_opp_r.
  rewrite Rmax_left by assumption.
  rewrite <- magnitude_sqr.
  pose proof epsilon_pos.
  replace (- (magnitude v * magnitude v) / (magnitude v * magnitude v))
    with (- (1)) by (field; lra).
  rewrite clip_id by lra.
  rewrite acos_opp, acos_1, Rminus_0_r. apply rad2deg_PI.
Qed.

(** C8. For every unit vector [v], [angle_between_vectors v v] is 0 and
    [angle_between_vectors v (-v)] is 180 degrees. *)
Theorem angle_unit_vector_self_and_opposite (v : rvec) :
  magnitude v = 1 ->
  angle_between_vectors v v = 0 /\
  angle_between_vectors v (rvec_opp v) = 180.
Proof.
  intros Hunit.
  assert (Hfloor : epsilon <= magnitude v).
  { rewrite Hunit. apply Rlt_le, epsilon_lt_1. }
  split; [now apply angle_self | now apply angle_self_opp].
Qed.

Lemma magnitude_e0 : magnitude (RVec 1 0 0) = 1.
Proof.
  unfold magnitude. simpl.
  replace (1 * 1 + 0 * 0 + 0 * 0) with 1 by ring. apply sqrt_1.
Qed.

Lemma angle_unit_vector_witness :
  angle_between_vectors (RVec 1 0 0) (RVec 1 0 0) = 0 /\
  angle_between_vectors (RVec 1 0 0) (rvec_opp (RVec 1 0 0)) = 180.
Proof.
  apply (angle_unit_vector_self_and_opposite (RVec 1 0 0)).
  apply magnitude_e0.
Defined.

(** C10, as stated, fails: the vectors handed to [angle_between_vectors]
    may hold NaN (masked voxels do), and then the result is NaN, not a
    number of [0, 180]. *)
Lemma nan_component_gives_nan_angle :
  angle_between_vectors_nan (None, Some 0, Some 0) (Some 1, Some 0, Some 0)
    = None /\
  ~ (exists t,
       angle_between_vectors_nan (None, Some 0, Some 0)
         (Some 1, Some 0, Some 0) = Some t /\
       0 <= t <= 180).
Proof.
  split; [reflexivity|].
  intros (t & H & _). discriminate H.
Qed.

(** C10, amended.  [angle_between_vectors] never divides by zero and never
    hands the inverse cosine a number outside [-1, 1].  On every pair of
    vectors without NaN, the zero vector included, both magnitudes are
    floored at [epsilon], so the divisor is positive; the cosine handed to
    the inverse cosine lies in [-1, 1]; and the result is a number of
    [0, 180].  When a component of either vector is NaN, the result is
    NaN. *)
Theorem angle_between_vectors_bounded_or_nan (vec1 vec2 : rnvec) :
  (forall v w, real_vector vec1 = Some v -> real_vector vec2 = Some w ->
     epsilon <= floored_magnitude v /\
     epsilon <= floored_magnitude w /\
     0 < floored_magnitude v * floored_magnitude w /\
     -1 <= cos_theta v w <= 1 /\
     angle_between_vectors_nan vec1 vec2 = Some (angle_between_vectors v w) /\
     0 <= angle_between_vectors v w <= 180) /\
  (real_vector vec1 = None \/ real_vector vec2 = None ->
   angle_between_vectors_nan vec1 vec2 = None).
Proof.
  destruct vec1 as [[a0 a1] a2], vec2 as [[b0 b1] b2]. split.
  - intros v w Hv Hw.
    destruct a0 as [a0|], a1 as [a1|], a2 as [a2|]; try discriminate.
    destruct b0 as [b0|], b1 as [b1|], b2 as [b2|]; try discriminate.
    injection Hv as <-. injection Hw as <-.
    split; [apply floored_magnitude_ge_eps|].
    split; [apply floored_magnitude_ge_eps|].
    split; [apply Rmult_lt_0_compat; apply floored_magnitude_pos|].
    split; [apply clip_bounds|].
    split; [reflexivity | apply angle_bounds].
  - intros [H | H];
      destruct a0 as [a0|], a1 as [a1|], a2 as [a2|];
      destruct b0 as [b0|], b1 as [b1|], b2 as [b2|];
      try discriminate H; reflexivity.
Qed.

Lemma angle_between_vectors_bounded_or_nan_witness :
  epsilon <= floored_magnitude (RVec 0 0 0) /\
  epsilon <= floored_magnitude (RVec 1 2 3) /\
  0 < floored_magnitude (RVec 0 0 0) * floored_magnitude (RVec 1 2 3) /\
  -1 <= cos_theta (RVec 0 0 0) (RVec 1 2 3) <= 1 /\
  angle_between_vectors_nan (Some 0, Some 0, Some 0)
    (Some 1, Some 2, Some 3) =
    Some (angle_between_vectors (RVec 0 0 0) (RVec 1 2 3)) /\
  0 <= angle_between_vectors (RVec 0 0 0) (RVec 1 2 3) <= 180.
Proof.
  apply (proj1 (angle_between_vectors_bounded_or_nan
                  (Some 0, Some 0, Some 0) (Some 1, Some 2, Some 3))
           (RVec 0 0 0) (RVec 1 2 3));
    reflexivity.
Defined.

Local Close Scope R_scope.
Local Open Scope Z_scope.

(** ** Facts on the tracer *)

Lemma np_round_inject_Z (z : Z) : np_round (inject_Z z) = z.
Proof.
  unfold np_round. rewrite Qfloor_Z.
  assert (H : (inject_Z z - inject_Z z < 1 # 2)%Q).
  { unfold Qlt, Qminus, Qplus, Qopp, inject_Z. simpl. lia. }
  rewrite Qlt_alt in H. now rewrite H.
Qed.

Lemma round_float_point (p : voxel) : round_point (float_point p) = p.
Proof.
  destruct p as [[z y] x]. unfold round_point, float_point.
  now rewrite !np_round_inject_Z.
Qed.

Lemma trace_loop_break vf s thr n st :
  trace_step vf s thr st = Break st ->
  trace_loop vf s thr n st = st.
Proof. intros H. destruct n; simpl; [reflexivity | now rewrite H]. Qed.

(** One pass of the loop body once the bounds test on the current voxel,
    the NaN test and the angle test have let it through. *)
Lemma trace_step_advance vf s thr st dv :
  in_bounds vf (round_point (current_point st)) = true ->
  step_vector vf s (current_point st) = Some dv ->
  angle_stop (direction_vector_tmp st) dv thr = false ->
  trace_step vf s thr st =
    if in_bounds vf (round_point (point_add (current_point st) dv))
    then Next (TracerState
                 (consecutive_points st ++ [point_add (current_point st) dv])
                 (float_point (int_point (point_add (current_point st) dv)))
                 (Some dv))
    else Break st.
Proof.
  intros Hb Hd Ha. unfold trace_step, step_vector in *.
  now rewrite Hb, Hd, Ha.
Qed.

(** A pass never drops a recorded point, and the only point it can add is
    the in-bounds next point. *)
Lemma trace_step_points vf s thr st :
  match trace_step vf s thr st with
  | Break st' => st' = st
  | Next st' =>
    exists dv,
      step_vector vf s (current_point st) = Some dv /\
      in_bounds vf (round_point (point_add (current_point st) dv)) = true /\
      consecutive_points st' =
        consecutive_points st ++ [point_add (current_point st) dv] /\
      current_point st' =
        float_point (int_point (point_add (current_point st) dv)) /\
      direction_vector_tmp st' = Some dv
  end.
Proof.
  unfold trace_step, step_vector.
  destruct (in_bounds vf (round_point (current_point st))); [|reflexivity].
  destruct (defined _) as [dv|]; [|reflexivity].
  destruct (angle_stop _ _ _); [reflexivity|].
  destruct (in_bounds vf (round_point (point_add _ _))) eqn:Hn; [|reflexivity].
  exists dv. simpl. auto.
Qed.

(** Every point of a polyline rounds to a voxel of the volume. *)
Lemma trace_loop_in_bounds vf s thr n st :
  Forall (fun p => in_bounds vf (round_point p) = true) (consecutive_points st) ->
  Forall (fun p => in_bounds vf (round_point p) = true)
    (consecutive_points (trace_loop vf s thr n st)).
Proof.
  revert st. induction n as [|n IH]; intros st Hst; simpl; [assumption|].
  pose proof (trace_step_points vf s thr st) as Hp.
  destruct (trace_step vf s thr st) as [st'|st'].
  - destruct Hp as (dv & _ & Hin & Hpts & _).
    apply IH. rewrite Hpts. apply Forall_app. split; [assumption|].
    constructor; [assumption | constructor].
  - now subst st'.
Qed.

Lemma find_consecutive_points_in_bounds vf seed n s thr :
  in_bounds vf seed = true ->
  Forall (fun p => in_bounds vf (round_point p) = true)
    (find_consecutive_points seed vf n s thr).
Proof.
  intros Hs. unfold find_consecutive_points. apply trace_loop_in_bounds.
  simpl. constructor; [|constructor]. now rewrite round_float_point.
Qed.

(** C4. An in-bounds seed whose first step rounds to a voxel outside the
    volume gives a streamline of exactly one point, the seed; and in
    [amira_writer] that streamline is dropped whenever
    [segment_min_length_threshold] is above 1. *)
Theorem edge_seed_single_point vf seed num_steps s thr dv :
  in_bounds vf seed = true ->
  step_vector vf s (float_point seed) = Some dv ->
  in_bounds vf (round_point (point_add (float_point seed) dv)) = false ->
  find_consecutive_points seed vf num_steps s thr = [float_point seed] /\
  forall start_index min_length seeds,
    1 < min_length ->
    trace_seeds vf start_index num_steps s thr min_length (seeds ++ [seed]) =
    trace_seeds vf start_index num_steps s thr min_length seeds.
Proof.
  intros Hb Hd Hout.
  assert (Hone : find_consecutive_points seed vf num_steps s thr =
                 [float_point seed]).
  { unfold find_consecutive_points.
    rewrite trace_loop_break; [reflexivity|].
    rewrite (trace_step_advance vf s thr (initial_state seed) dv).
    - simpl. now rewrite Hout.
    - simpl. now rewrite round_float_point.
    - exact Hd.
    - reflexivity. }
  split; [exact Hone|].
  intros start_index min_length seeds Hmin.
  unfold trace_seeds. rewrite fold_left_app. simpl.
  rewrite Hone. simpl.
  destruct (min_length <=? 1) eqn:E; [lia | reflexivity].
Qed.

Lemma edge_seed_single_point_witness :
  find_consecutive_points (0, 0, 0) row_field 3 1 60 =
    [float_point (0, 0, 0)] /\
  forall start_index min_length seeds,
    1 < min_length ->
    trace_seeds row_field start_index 3 1 60 min_length
      (seeds ++ [(0, 0, 0)]) =
    trace_seeds row_field start_index 3 1 60 min_length seeds.
Proof.
  apply (edge_seed_single_point row_field (0, 0, 0) 3%nat 1%Q 60%Q
           (0 * 1, 0 * 1, (-1) * 1)%Q); reflexivity.
Defined.

(** C3, as stated, fails.  In [row_field] the first pass from the seed
    (0, 0, 0) with step length 1 reads a vector without NaN, makes no angle
    test, and steps to (0, 0, -1), outside the volume: the loop breaks and
    the polyline returned does not hold that point.  And from the seed
    (0, 0, 4) with step length 1/2 the in-bounds point (0, 0, 7/2) is
    recorded, but the position the next pass starts from is (0, 0, 3). *)
Lemma out_of_bounds_point_not_recorded :
  (let st := initial_state (0, 0, 0) in
   let next_point := point_add (current_point st) (0 * 1, 0 * 1, (-1) * 1)%Q in
   in_bounds row_field (round_point (current_point st)) = true /\
   step_vector row_field 1 (current_point st) =
     Some (0 * 1, 0 * 1, (-1) * 1)%Q /\
   angle_stop (direction_vector_tmp st) (0 * 1, 0 * 1, (-1) * 1)%Q 60 = false /\
   in_bounds row_field (round_point next_point) = false /\
   trace_step row_field 1 60 st = Break st /\
   ~ In next_point (find_consecutive_points (0, 0, 0) row_field 3 1 60)) /\
  (let st := initial_state (0, 0, 4) in
   let dv := (0 * (1 # 2), 0 * (1 # 2), (-1) * (1 # 2))%Q in
   exists st',
     trace_step row_field (1 # 2) 60 st = Next st' /\
     consecutive_points st' =
       consecutive_points st ++ [point_add (current_point st) dv] /\
     current_point st' = float_point (0, 0, 3) /\
     current_point st' <> point_add (current_point st) dv).
Proof.
  split.
  - cbv zeta. repeat split; try reflexivity.
    intros Hin. vm_compute in Hin. destruct Hin as [Hin | []].
    discriminate Hin.
  - cbv zeta. eexists. split; [reflexivity|].
    split; [reflexivity|]. split; [reflexivity|].
    vm_compute. discriminate.
Qed.

(** C3, amended.  In a pass where the current voxel is inside the volume,
    its vector has no NaN and the angle test does not break, the tracer
    computes [next_point = current_point + vector * segment_length].  If
    the voxel [next_point] rounds to is inside the volume, the point is
    appended to the polyline as it is and the next pass starts from
    [next_point] with its coordinates truncated to integers; if not, the
    loop breaks and the polyline is left as it was. *)
Theorem advance_records_in_bounds_point_only vf s thr st dv :
  in_bounds vf (round_point (current_point st)) = true ->
  step_vector vf s (current_point st) = Some dv ->
  angle_stop (direction_vector_tmp st) dv thr = false ->
  let next_point := point_add (current_point st) dv in
  (in_bounds vf (round_point next_point) = true ->
   trace_step vf s thr st =
     Next (TracerState (consecutive_points st ++ [next_point])
             (float_point (int_point next_point)) (Some dv))) /\
  (in_bounds vf (round_point next_point) = false ->
   trace_step vf s thr st = Break st).
Proof.
  intros Hb Hd Ha next_point.
  rewrite (trace_step_advance vf s thr st dv Hb Hd Ha).
  fold next_point.
  split; intros ->; reflexivity.
Qed.

Lemma advance_records_in_bounds_point_only_witness :
  let st := initial_state (0, 0, 4) in
  let dv := (0 * 1, 0 * 1, (-1) * 1)%Q in
  let next_point := point_add (current_point st) dv in
  (in_bounds row_field (round_point next_point) = true ->
   trace_step row_field 1 60 st =
     Next (TracerState (consecutive_points st ++ [next_point])
             (float_point (int_point next_point)) (Some dv))) /\
  (in_bounds row_field (round_point next_point) = false ->
   trace_step row_field 1 60 st = Break st).
Proof.
  apply (advance_records_in_bounds_point_only row_field 1%Q 60%Q
           (initial_state (0, 0, 4)) (0 * 1, 0 * 1, (-1) * 1)%Q);
    reflexivity.
Defined.

(** ** Rounding against truncation *)

Lemma np_round_cases (x : Q) :
  np_round x = Qfloor x \/
  (np_round x = Qfloor x + 1 /\ (1 # 2 <= x - inject_Z (Qfloor x))%Q).
Proof.
  unfold np_round.
  destruct (Qcompare (x - inject_Z (Qfloor x)) (1 # 2)) eqn:E.
  - apply Qeq_alt in E.
    destruct (Z.even (Qfloor x)); [now left | right].
    split; [reflexivity | rewrite E; apply Qle_refl].
  - now left.
  - right. split; [reflexivity|].
    apply Qgt_alt in E. now apply Qlt_le_weak.
Qed.

(** Where rounding lands inside [0, n), truncation does too. *)
Lemma py_int_in_range (x : Q) (n : Z) :
  0 <= np_round x < n -> 0 <= py_int x < n.
Proof.
  intros [Hlo Hhi].
  destruct x as [a d]. unfold py_int. simpl.
  pose proof (np_round_cases (a # d)) as Hc.
  unfold Qfloor in Hc.
  assert (Hd : 0 < Z.pos d) by lia.
  destruct (Z_lt_le_dec a 0) as [Hneg | Hpos].
  - (* negative: truncation gives 0 *)
    assert (Hf : a / Z.pos d <= -1).
    { apply Z.lt_succ_r. simpl. now apply Z.div_lt_upper_bound; lia. }
    destruct Hc as [Hc | [Hc Hhalf]]; [lia|].
    assert (Hfl : a / Z.pos d = -1) by lia.
    rewrite Hfl in Hhalf.
    unfold Qle, Qminus, Qplus, Qopp, inject_Z in Hhalf. simpl in Hhalf.
    assert (Hq : a ÷ Z.pos d = 0).
    { apply Z.quot_small_iff; lia. }
    rewrite Hq. lia.
  - rewrite Z.quot_div_nonneg by lia.
    assert (0 <= a / Z.pos d) by (apply Z.div_pos; lia).
    destruct Hc as [Hc | [Hc _]]; lia.
Qed.

Lemma in_bounds_spec vf z y x :
  in_bounds vf (z, y, x) = true <->
  0 <= z < shape1 vf /\ 0 <= y < shape2 vf /\ 0 <= x < shape3 vf.
Proof. unfold in_bounds. lia. Qed.

(** The position a pass hands on is inside the volume whenever the point
    it recorded is. *)
Lemma int_point_in_bounds vf p :
  in_bounds vf (round_point p) = true ->
  in_bounds vf (round_point (float_point (int_point p))) = true.
Proof.
  rewrite round_float_point.
  destruct p as [[z y] x]. unfold round_point, int_point.
  rewrite !in_bounds_spec. intros (Hz & Hy & Hx).
  split; [|split]; now apply py_int_in_range.
Qed.

(** ** [scale_points] *)

Lemma fold_left_snoc_map {A B : Type} (f : A -> B) (l : list A) (acc : list B) :
  fold_left (fun acc x => acc ++ [f x]) l acc = acc ++ map f l.
Proof.
  revert acc. induction l as [|x l IH]; intros acc; simpl.
  - now rewrite app_nil_r.
  - rewrite IH, <- app_assoc. reflexivity.
Qed.

Lemma scale_points_map (pts : list (list point)) (s : Q) :
  scale_points pts s = map (map (scale_point s)) pts.
Proof. unfold scale_points. now rewrite fold_left_snoc_map. Qed.

Lemma scale_point_inverse (s : Q) (p : point) :
  (0 < s)%Q -> point_eq (scale_point s (scale_point (1 / s) p)) p.
Proof.
  intros Hs. destruct p as [[a b] c]. unfold scale_point, point_eq.
  assert (Hne : ~ (s == 0)%Q) by (intros E; rewrite E in Hs; discriminate).
  repeat split; field; exact Hne.
Qed.

(** C9. For every nested list of points and every positive scale [s],
    scaling by [1 / s] and then by [s] gives back the list: the same
    number of polylines, of the same lengths, with every coordinate of
    every point equal to the original one. *)
Theorem scale_points_inverse (pts : list (list point)) (s : Q) :
  (0 < s)%Q ->
  Forall2 (Forall2 point_eq) (scale_points (scale_points pts (1 / s)) s) pts.
Proof.
  intros Hs. rewrite !scale_points_map, map_map.
  induction pts as [|l pts IH]; simpl; constructor; [|exact IH].
  rewrite map_map.
  induction l as [|p l IHl]; simpl; constructor; [|exact IHl].
  now apply scale_point_inverse.
Qed.

Lemma scale_points_inverse_witness :
  Forall2 (Forall2 point_eq)
    (scale_points
       (scale_points [[(1, 2, 3)%Q; (0, 1 # 2, 7)%Q]; [(5, 5, 5)%Q]] (1 / 3))
       3)
    [[(1, 2, 3)%Q; (0, 1 # 2, 7)%Q]; [(5, 5, 5)%Q]].
Proof.
  apply (scale_points_inverse
           [[(1, 2, 3)%Q; (0, 1 # 2, 7)%Q]; [(5, 5, 5)%Q]] 3).
  reflexivity.
Defined.

(** ** The text [write_am_file] writes *)

Local Open Scope string_scope.

Lemma str_app_assoc (a b c : string) : (a ++ b) ++ c = a ++ (b ++ c).
Proof. induction a as [|ch a IH]; simpl; [reflexivity | now rewrite IH]. Qed.

Lemma str_app_nil_l (a : string) : EmptyString ++ a = a.
Proof. reflexivity. Qed.

Lemma str_app_nil_r (a : string) : a ++ EmptyString = a.
Proof. induction a as [|ch a IH]; simpl; [reflexivity | now rewrite IH]. Qed.

(** A loop that writes one string per element writes their concatenation. *)
Lemma fold_left_write {T : Type} (g : T -> string) (l : list T) (f : string) :
  fold_left (fun f x => write f (g x)) l f = f ++ str_concat (map g l).
Proof.
  revert f. induction l as [|x l IH]; intros f; simpl.
  - now rewrite str_app_nil_r.
  - rewrite IH. unfold write. now rewrite str_app_assoc.
Qed.

Lemma fold_left_write_ext {T : Type} (h : string -> T -> string)
    (g : T -> string) (l : list T) (f : string) :
  (forall f x, h f x = f ++ g x) ->
  fold_left h l f = f ++ str_concat (map g l).
Proof.
  intros Hh. rewrite <- fold_left_write.
  revert f. induction l as [|x l IH]; intros f; simpl; [reflexivity|].
  rewrite IH. unfold write. now rewrite Hh.
Qed.

Lemma count_points_sum (cpl : list (list point)) :
  count_points cpl = list_sum (map (@List.length point) cpl).
Proof.
  unfold count_points.
  assert (H : forall acc,
    fold_left (fun acc segment => (acc + List.length segment)%nat) cpl acc =
    (acc + list_sum (map (@List.length point) cpl))%nat).
  { induction cpl as [|seg cpl IH]; intros acc; simpl; [lia|].
    rewrite IH. lia. }
  now rewrite H.
Qed.

(** C5. For [N] polylines with [p_1 .. p_N] points, the text written opens
    with the header line and the declarations [define VERTEX 2N],
    [define EDGE N] and [define POINT p_1 + ... + p_N]; its [@2] section is
    the lines [2i 2i+1] for [i = 0 .. N-1] in order; and its [@3] section
    is the lines [p_1 .. p_N] in the order of the polylines, one per
    line.  The other sections are given as the code writes them. *)
Theorem write_am_file_counts_and_sections (A : Type)
    (float_str : Q -> string) (angle_str : A -> string)
    (cpl : list (list point)) (HA_angle : list Q) (z_angle : list A) :
  let N := List.length cpl in
  let p := map (@List.length point) cpl in
  write_am_file A float_str angle_str cpl HA_angle z_angle =
    "# AmiraMesh 3D ASCII 3.0" ++ nl ++ nl ++ nl ++
    "define VERTEX " ++ str_int (2 * Z.of_nat N) ++ nl ++
    "define EDGE " ++ str_int (Z.of_nat N) ++ nl ++
    "define POINT " ++ str_int (Z.of_nat (list_sum p)) ++ nl ++
    nl ++ "Parameters {" ++ nl ++ "    ContentType " ++
      dquote ++ "HxSpatialGraph" ++ dquote ++ nl ++ "}" ++ nl ++ nl ++
    "VERTEX { float[3] VertexCoordinates } @1" ++ nl ++
    "EDGE { int[2] EdgeConnectivity } @2" ++ nl ++
    "EDGE { int NumEdgePoints } @3" ++ nl ++
    "POINT { float[3] EdgePointCoordinates } @4" ++ nl ++
    "POINT { float thickness } @5" ++ nl ++
    "POINT { float HA_angle } @6" ++ nl ++
    "POINT { float z_angle } @7" ++ nl ++
    nl ++ "# Data section follows" ++ nl ++
    "@1" ++ nl ++
    str_concat
      (map (fun segment =>
              if (2 <=? List.length segment)%nat
              then point_line float_str (first_point segment) ++
                   point_line float_str (last_point segment)
              else EmptyString) cpl) ++
    nl ++ "@2" ++ nl ++
    str_concat
      (map (fun i => str_int (2 * i) ++ " " ++ str_int (2 * i + 1) ++ nl)
         (range N)) ++
    nl ++ "@3" ++ nl ++
    str_concat (map (fun n => str_int (Z.of_nat n) ++ nl) p) ++
    nl ++ "@4" ++ nl ++
    str_concat
      (map (fun segment => str_concat (map (point_line float_str) segment))
         cpl) ++
    nl ++ "@5" ++ nl ++
    str_concat
      (map (fun segment => str_repeat ("1.0" ++ nl) (List.length segment))
         cpl) ++
    nl ++ "@6" ++ nl ++
    str_concat (map (fun angle => float_str angle ++ nl) HA_angle) ++
    nl ++ "@7" ++ nl ++
    str_concat (map (fun angle => angle_str angle ++ nl) z_angle).
Proof.
  intros N p. unfold write_am_file.
  rewrite count_points_sum.
  rewrite (fold_left_write (fun angle => angle_str angle ++ nl)).
  rewrite (fold_left_write (fun angle => float_str angle ++ nl)).
  rewrite (fold_left_write
             (fun segment => str_repeat ("1.0" ++ nl) (List.length segment))).
  rewrite (fold_left_write_ext _
             (fun segment => str_concat (map (point_line float_str) segment)))
    by (intros; apply fold_left_write).
  rewrite (fold_left_write
             (fun segment => str_int (Z.of_nat (List.length segment)) ++ nl)).
  rewrite (fold_left_write
             (fun i => str_int (i * 2) ++ " " ++ str_int (i * 2 + 1) ++ nl)).
  rewrite (fold_left_write_ext _
             (fun segment =>
                if (2 <=? List.length segment)%nat
                then point_line float_str (first_point segment) ++
                     point_line float_str (last_point segment)
                else EmptyString)).
  2:{ intros f x. destruct (2 <=? List.length x)%nat.
      - unfold write. now rewrite str_app_assoc.
      - now rewrite str_app_nil_r. }
  unfold write. subst N p.
  rewrite (Z.mul_comm (Z.of_nat (List.length cpl)) 2).
  rewrite (map_ext (fun i => str_int (i * 2) ++ " " ++ str_int (i * 2 + 1) ++ nl)
                   (fun i => str_int (2 * i) ++ " " ++ str_int (2 * i + 1) ++ nl))
    by (intros i; now rewrite (Z.mul_comm i 2)).
  rewrite map_map.
  rewrite str_app_nil_l.
  rewrite !str_app_assoc. reflexivity.
Qed.

Local Close Scope string_scope.

(** ** Angles between step vectors of one direction *)

Local Open Scope R_scope.

Lemma magnitude_nonneg (v : rvec) : 0 <= magnitude v.
Proof. apply sqrt_pos. Qed.

Lemma magnitude_scaled (a b : rvec) (k : R) :
  0 < k -> r0 b = r0 a * k -> r1 b = r1 a * k -> r2 b = r2 a * k ->
  magnitude b = k * magnitude a.
Proof.
  intros Hk H0 H1 H2. unfold magnitude. rewrite H0, H1, H2.
  replace (r0 a * k * (r0 a * k) + r1 a * k * (r1 a * k) +
           r2 a * k * (r2 a * k))
    with (k * k * (r0 a * r0 a + r1 a * r1 a + r2 a * r2 a)) by ring.
  rewrite sqrt_mult_alt by nra.
  rewrite sqrt_square by lra. reflexivity.
Qed.






Local Close Scope R_scope.

(** ** Tracing a field of one direction *)










Local Open Scope R_scope.




Local Close Scope R_scope.





(** ** Seeding in [amira_writer] *)

Lemma isnan_flip_entry (v : nvec) : isnan_any (flip_entry v) = isnan_any v.
Proof.
  destruct v as [[[a|] [b|]] [c|]]; simpl; try reflexivity;
    destruct (Qgt_bool a 0); reflexivity.
Qed.

Lemma all_voxels_align (vf : vector_field) :
  all_voxels (align_vectors vf) = all_voxels vf.
Proof. reflexivity. Qed.

(** The flip leaves the set of valid voxels as it is. *)
Lemma valid_indices_align (vf : vector_field) :
  valid_indices (align_vectors vf) = valid_indices vf.
Proof.
  unfold valid_indices. rewrite all_voxels_align.
  apply filter_ext. intros [[z y] x]. unfold mask_volume. simpl.
  now rewrite isnan_flip_entry.
Qed.

Lemma in_range (n : nat) (z : Z) :
  In z (range n) <-> 0 <= z < Z.of_nat n.
Proof.
  unfold range. rewrite in_map_iff. split.
  - intros (i & <- & Hi). apply in_seq in Hi. lia.
  - intros Hz. exists (Z.to_nat z). split; [lia|]. apply in_seq. lia.
Qed.

Lemma range_NoDup (n : nat) : NoDup (range n).
Proof.
  unfold range. apply NoDup_map_NoDup_ForallPairs; [|apply seq_NoDup].
  intros i j _ _ H. lia.
Qed.

Lemma NoDup_flat_map {A B : Type} (f : A -> list B) (l : list A) :
  NoDup l -> (forall a, In a l -> NoDup (f a)) ->
  (forall a b x, In a l -> In b l -> In x (f a) -> In x (f b) -> a = b) ->
  NoDup (flat_map f l).
Proof.
  intros Hl. induction Hl as [|a l Hnotin Hl IH]; intros Hf Hdisj; simpl.
  - constructor.
  - apply NoDup_app.
    + apply Hf. now left.
    + apply IH.
      * intros b Hb. apply Hf. now right.
      * intros b c x Hb Hc. apply Hdisj; now right.
    + intros x Hx Hin. apply in_flat_map in Hin as (b & Hb & Hxb).
      assert (a = b) by (apply (Hdisj a b x); auto; [now left | now right]).
      subst b. contradiction.
Qed.

Lemma in_all_voxels (vf : vector_field) (p : voxel) :
  In p (all_voxels vf) <-> in_bounds vf p = true.
Proof.
  destruct p as [[z y] x]. rewrite in_bounds_spec. unfold all_voxels.
  rewrite in_flat_map. split.
  - intros (z' & Hz & Hin). apply in_flat_map in Hin as (y' & Hy & Hin).
    apply in_map_iff in Hin as (x' & [= <- <- <-] & Hx).
    apply in_range in Hz, Hy, Hx. lia.
  - intros (Hz & Hy & Hx). exists z. split; [apply in_range; lia|].
    apply in_flat_map. exists y. split; [apply in_range; lia|].
    apply in_map_iff. exists x. split; [reflexivity | apply in_range; lia].
Qed.

Lemma all_voxels_NoDup (vf : vector_field) : NoDup (all_voxels vf).
Proof.
  unfold all_voxels. apply NoDup_flat_map.
  - apply range_NoDup.
  - intros z _. apply NoDup_flat_map.
    + apply range_NoDup.
    + intros y _. apply NoDup_map_NoDup_ForallPairs; [|apply range_NoDup].
      intros x x' _ _ [= H]. exact H.
    + intros y y' p _ _ Hp Hp'.
      apply in_map_iff in Hp as (x & <- & _).
      apply in_map_iff in Hp' as (x' & [= E _] & _). now symmetry.
  - intros z z' p _ _ Hp Hp'.
    apply in_flat_map in Hp as (y & _ & Hp).
    apply in_map_iff in Hp as (x & <- & _).
    apply in_flat_map in Hp' as (y' & _ & Hp').
    apply in_map_iff in Hp' as (x' & [= E _ _] & _). now symmetry.
Qed.

Lemma valid_indices_NoDup (vf : vector_field) : NoDup (valid_indices vf).
Proof. apply NoDup_filter, all_voxels_NoDup. Qed.

Lemma in_valid_indices (vf : vector_field) (p : voxel) :
  In p (valid_indices vf) <->
  in_bounds vf p = true /\ isnan_any (vf_get vf p) = false.
Proof.
  unfold valid_indices. rewrite filter_In, in_all_voxels.
  unfold mask_volume. destruct (isnan_any (vf_get vf p)); simpl.
  - split; intros [_ H]; discriminate.
  - tauto.
Qed.

(** Distinct indices into a list without repetition pick distinct
    elements. *)
Lemma picks_NoDup {A : Type} (l : list A) (d : A) (idx : list nat) :
  NoDup l -> NoDup idx -> Forall (fun i => (i < List.length l)%nat) idx ->
  NoDup (map (fun i => nth i l d) idx).
Proof.
  intros Hl Hidx Hlt. apply NoDup_map_NoDup_ForallPairs; [|exact Hidx].
  intros i j Hi Hj E. rewrite Forall_forall in Hlt.
  exact (proj1 (NoDup_nth l d) Hl i j (Hlt i Hi) (Hlt j Hj) E).
Qed.

Lemma random_points_done choice vf num_ini_points :
  choice_without_replacement choice ->
  (num_ini_points <= List.length (valid_indices vf))%nat ->
  exists seeds,
    random_points choice vf num_ini_points = Done seeds /\
    List.length seeds = num_ini_points /\
    NoDup seeds /\
    Forall (valid_voxel vf) seeds.
Proof.
  intros Hchoice Hle. unfold random_points.
  destruct (Nat.ltb_spec (List.length (valid_indices vf)) num_ini_points)
    as [Hlt | _]; [lia|].
  destruct (Hchoice _ _ Hle) as (Hlen & Hnd & Hlt).
  eexists. split; [reflexivity|]. split; [|split].
  - now rewrite length_map.
  - apply picks_NoDup; [apply valid_indices_NoDup | exact Hnd | exact Hlt].
  - apply Forall_forall. intros p Hp.
    apply in_map_iff in Hp as (i & <- & Hi).
    rewrite Forall_forall in Hlt.
    apply in_valid_indices. apply nth_In. now apply Hlt.
Qed.



Lemma first_indices_without_replacement :
  choice_without_replacement first_indices.
Proof.
  intros n k Hk. unfold first_indices. split; [apply length_seq|].
  split; [apply seq_NoDup|].
  apply Forall_forall. intros i Hi. apply in_seq in Hi. lia.
Qed.


(** ** [compute_orientation]: the vectors dispatched *)

Local Open Scope R_scope.

Lemma nth_error_combine_seq {T : Type} (l : list T) (a z : nat) :
  nth_error (combine (seq a (List.length l)) l) z =
  option_map (fun s => ((a + z)%nat, s)) (nth_error l z).
Proof.
  revert a z. induction l as [|s l IH]; intros a z; simpl.
  - now destruct z.
  - destruct z as [|z]; simpl.
    + now rewrite Nat.add_0_r.
    + rewrite IH. now rewrite Nat.add_succ_r.
Qed.

Lemma nth_error_remove_padding {T : Type} (l : list T) (ps pe z : nat) :
  nth_error (remove_padding l ps pe) z =
  if (z <? List.length l - ps - pe)%nat then nth_error l (ps + z)
  else None.
Proof.
  unfold remove_padding. now rewrite nth_error_firstn, nth_error_skipn.
Qed.

(** The vector dispatched at a place is the normalized vector of the place
    [padding_start] slices further in the padded array. *)
Lemma dispatched_at_normalize (vec : field) (ps pe z y x : nat) (v : rnvec) :
  dispatched_at vec ps pe z y x = Some v ->
  exists v0, field_at vec (ps + z) y x = Some v0 /\ v = normalize v0.
Proof.
  unfold dispatched_at, dispatched_slices, field_at.
  rewrite nth_error_combine_seq, nth_error_map, nth_error_remove_padding.
  destruct (z <? List.length vec - ps - pe)%nat; [|discriminate].
  destruct (nth_error vec (ps + z)) as [slice|]; [|discriminate]. simpl.
  rewrite nth_error_map.
  destruct (nth_error slice y) as [row|]; [|discriminate]. simpl.
  rewrite nth_error_map.
  destruct (nth_error row x) as [v0|]; [|discriminate]. simpl.
  intros [= <-]. now exists v0.
Qed.

Lemma normalize_defined (v0 : rnvec) (a b c : R) :
  normalize v0 = (Some a, Some b, Some c) ->
  exists a0 b0 c0,
    v0 = (Some a0, Some b0, Some c0) /\
    0 < sqrt (a0 * a0 + b0 * b0 + c0 * c0) /\
    a = a0 / sqrt (a0 * a0 + b0 * b0 + c0 * c0) /\
    b = b0 / sqrt (a0 * a0 + b0 * b0 + c0 * c0) /\
    c = c0 / sqrt (a0 * a0 + b0 * b0 + c0 * c0).
Proof.
  destruct v0 as [[[a0|] [b0|]] [c0|]]; simpl; try discriminate.
  destruct (Req_dec_T (sqrt (a0 * a0 + b0 * b0 + c0 * c0)) 0) as [E | Hne];
    [discriminate|].
  intros [= <- <- <-]. exists a0, b0, c0.
  split; [reflexivity|]. split; [|auto].
  pose proof (sqrt_pos (a0 * a0 + b0 * b0 + c0 * c0)). lra.
Qed.

(** C1, as stated, fails: the single vector (1, 0, 0) is dispatched with
    its first (Z) component still positive. *)
Lemma positive_z_vector_dispatched :
  exists a b c,
    dispatched_at [[[(Some 1, Some 0, Some 0)]]] 0 0 0 0 0
      = Some (Some a, Some b, Some c) /\
    0 < a.
Proof.
  unfold dispatched_at, dispatched_slices, remove_padding. simpl.
  replace (1 * 1 + 0 * 0 + 0 * 0) with 1 by ring. rewrite sqrt_1.
  destruct (Req_dec_T 1 0) as [E | _]; [lra|].
  do 3 eexists. split; [reflexivity | lra].
Qed.

(** C1, amended.  After the padding slices are stripped, every vector is
    divided by its norm and no sign is changed: a defined (non-NaN) vector
    handed to slice processing is [v / |v|] for the vector [v] at the same
    place of the stripped array, so it has norm 1 and its Z component has
    the sign the Z component of [v] has. *)
Theorem dispatched_vectors_unit_sign_kept (vec : field)
    (padding_start padding_end z y x : nat) (a b c : R) :
  dispatched_at vec padding_start padding_end z y x
    = Some (Some a, Some b, Some c) ->
  exists a0 b0 c0,
    field_at vec (padding_start + z) y x = Some (Some a0, Some b0, Some c0) /\
    0 < sqrt (a0 * a0 + b0 * b0 + c0 * c0) /\
    a = a0 / sqrt (a0 * a0 + b0 * b0 + c0 * c0) /\
    b = b0 / sqrt (a0 * a0 + b0 * b0 + c0 * c0) /\
    c = c0 / sqrt (a0 * a0 + b0 * b0 + c0 * c0) /\
    a * a + b * b + c * c = 1 /\
    (0 < a <-> 0 < a0) /\
    (a < 0 <-> a0 < 0).
Proof.
  intros H.
  destruct (dispatched_at_normalize _ _ _ _ _ _ _ H) as (v0 & Hv0 & Hn).
  symmetry in Hn.
  destruct (normalize_defined v0 a b c Hn)
    as (a0 & b0 & c0 & -> & Hpos & Ha & Hb & Hc).
  exists a0, b0, c0. split; [exact Hv0|]. split; [exact Hpos|].
  split; [exact Ha|]. split; [exact Hb|]. split; [exact Hc|].
  set (n := sqrt (a0 * a0 + b0 * b0 + c0 * c0)) in *.
  assert (Hsq : n * n = a0 * a0 + b0 * b0 + c0 * c0).
  { unfold n. apply sqrt_sqrt. nra. }
  assert (Hinv : 0 < / n) by now apply Rinv_0_lt_compat.
  split; [|split].
  - rewrite Ha, Hb, Hc.
    replace (a0 / n * (a0 / n) + b0 / n * (b0 / n) + c0 / n * (c0 / n))
      with ((a0 * a0 + b0 * b0 + c0 * c0) / (n * n)) by (field; lra).
    rewrite <- Hsq. field. lra.
  - rewrite Ha. unfold Rdiv. split; intros Hs.
    + assert (a0 = a0 * / n * n) by (field; lra). nra.
    + nra.
  - rewrite Ha. unfold Rdiv. split; intros Hs.
    + assert (a0 = a0 * / n * n) by (field; lra). nra.
    + nra.
Qed.

Lemma padded_field_dispatched :
  dispatched_at padded_field 1 1 0 0 0
  = Some (Some (1 / sqrt (1 * 1 + 0 * 0 + 0 * 0)),
          Some (0 / sqrt (1 * 1 + 0 * 0 + 0 * 0)),
          Some (0 / sqrt (1 * 1 + 0 * 0 + 0 * 0))).
Proof.
  unfold dispatched_at, dispatched_slices, remove_padding, padded_field.
  simpl.
  destruct (Req_dec_T (sqrt (1 * 1 + 0 * 0 + 0 * 0)) 0) as [E | _];
    [|reflexivity].
  exfalso. replace (1 * 1 + 0 * 0 + 0 * 0) with 1 in E by ring.
  rewrite sqrt_1 in E. lra.
Qed.

Lemma dispatched_vectors_unit_sign_kept_witness :
  exists a0 b0 c0,
    field_at padded_field (1 + 0) 0 0 = Some (Some a0, Some b0, Some c0) /\
    0 < sqrt (a0 * a0 + b0 * b0 + c0 * c0) /\
    1 / sqrt (1 * 1 + 0 * 0 + 0 * 0)
      = a0 / sqrt (a0 * a0 + b0 * b0 + c0 * c0) /\
    0 / sqrt (1 * 1 + 0 * 0 + 0 * 0)
      = b0 / sqrt (a0 * a0 + b0 * b0 + c0 * c0) /\
    0 / sqrt (1 * 1 + 0 * 0 + 0 * 0)
      = c0 / sqrt (a0 * a0 + b0 * b0 + c0 * c0) /\
    1 / sqrt (1 * 1 + 0 * 0 + 0 * 0) * (1 / sqrt (1 * 1 + 0 * 0 + 0 * 0)) +
    0 / sqrt (1 * 1 + 0 * 0 + 0 * 0) * (0 / sqrt (1 * 1 + 0 * 0 + 0 * 0)) +
    0 / sqrt (1 * 1 + 0 * 0 + 0 * 0) * (0 / sqrt (1 * 1 + 0 * 0 + 0 * 0))
      = 1 /\
    (0 < 1 / sqrt (1 * 1 + 0 * 0 + 0 * 0) <-> 0 < a0) /\
    (1 / sqrt (1 * 1 + 0 * 0 + 0 * 0) < 0 <-> a0 < 0).
Proof.
  apply (dispatched_vectors_unit_sign_kept padded_field 1 1 0 0 0).
  exact padded_field_dispatched.
Defined.

(** In [amira_writer] the flip is made: after [align_vectors] no vector has
    a positive first (Z) component. *)
Lemma align_vectors_nonpositive (vf : vector_field) (z y x : Z) (a : Q)
    (b c : option Q) :
  vf_at (align_vectors vf) z y x = (Some a, b, c) -> (a <= 0)%Q.
Proof.
  simpl. destruct (vf_at vf z y x) as [[[a0|] b0] c0]; simpl;
    [|discriminate].
  unfold Qgt_bool. destruct (Qle_bool a0 0) eqn:E; simpl.
  - intros [= <- _ _]. now apply Qle_bool_iff.
  - intros [= <- _ _].
    assert (H : ~ (a0 <= 0)%Q).
    { intros H. apply Qle_bool_iff in H. congruence. }
    apply Qnot_le_lt in H.
    setoid_replace (a0 * -1)%Q with (- a0)%Q by ring.
    apply Qlt_le_weak. rewrite <- (Qopp_involutive 0) at 1.
    apply Qopp_lt_compat in H. exact H.
Qed.

Local Close Scope R_scope.

(** ** [compute_slice_angles_and_anisotropy]: the resume test *)

Section SliceNoOp.

Variable world : Type.
Variable path_exists : world -> string -> bool.
Variables vector_slice image eigen_slice center : Type.
Variable compute_fraction_anisotropy : eigen_slice -> io world image.
Variable rotate_vectors_to_new_axis :
  vector_slice -> center -> io world vector_slice.
Variable compute_helix_and_transverse_angles :
  vector_slice -> center -> io world (image * image).
Variable plot_images :
  image -> image -> image -> image -> center -> io world unit.
Variable write_images :
  image -> image -> image -> Z -> string -> string -> string -> Z ->
  io world unit.
Variable write_vector_field : vector_slice -> Z -> string -> Z -> io world unit.

(** The guard as the code has it.  Outside test mode, when the files
    [HA_*.tif], [IA_*.tif] and [FA_*.tif] of slice [start_index + z]
    exist, the call returns at once, whatever [OUTPUT_FORMAT] is and
    whether or not the eigenvector file exists: whatever the helpers
    would compute, plot or write, none of them is run, and the world, the
    file system included, is left as it was. *)
Theorem tif_images_present_slice_skipped
    (z : Z) (vector_field_slice : vector_slice) (img_slice : image)
    (center_point : center) (eigen_val_slice : eigen_slice)
    (center_vec : center) (OUTPUT_DIR OUTPUT_FORMAT OUTPUT_TYPE : string)
    (start_index : Z) (IS_VECTORS : bool) (w : world) :
  path_exists w (HA_path OUTPUT_DIR (start_index + z)) = true ->
  path_exists w (IA_path OUTPUT_DIR (start_index + z)) = true ->
  path_exists w (FA_path OUTPUT_DIR (start_index + z)) = true ->
  compute_slice_angles_and_anisotropy world path_exists
    vector_slice image eigen_slice center
    compute_fraction_anisotropy rotate_vectors_to_new_axis
    compute_helix_and_transverse_angles plot_images write_images
    write_vector_field
    z vector_field_slice img_slice center_point eigen_val_slice center_vec
    OUTPUT_DIR OUTPUT_FORMAT OUTPUT_TYPE start_index IS_VECTORS false w
  = (tt, w).
Proof.
  intros HHA HIA HFA.
  unfold compute_slice_angles_and_anisotropy.
  cbn [negb andb forallb]. rewrite HHA, HIA, HFA. reflexivity.
Qed.

End SliceNoOp.

Lemma tif_images_present_slice_skipped_witness :
  compute_slice_angles_and_anisotropy (list string) listed
    unit unit unit unit
    (mark "compute_fraction_anisotropy" tt)
    (fun v _ => mark "rotate_vectors_to_new_axis" tt v)
    (fun v _ => mark "compute_helix_and_transverse_angles" (tt, tt) v)
    (fun _ _ _ _ => mark "plot_images" tt)
    (fun _ _ _ _ _ _ _ => mark "write_images" tt)
    (fun _ _ _ => mark "write_vector_field" tt)
    2 tt tt tt tt tt "out" "tif" "8bit" 3 true false slice_5_done
  = (tt, slice_5_done).
Proof.
  apply tif_images_present_slice_skipped; reflexivity.
Defined.

(** Where an image is missing, the helpers do run: here they leave their
    marks in the world. *)
Lemma slice_not_done_runs_helpers :
  compute_slice_angles_and_anisotropy (list string) listed
    unit unit unit unit
    (mark "compute_fraction_anisotropy" tt)
    (fun v _ => mark "rotate_vectors_to_new_axis" tt v)
    (fun v _ => mark "compute_helix_and_transverse_angles" (tt, tt) v)
    (fun _ _ _ _ => mark "plot_images" tt)
    (fun _ _ _ _ _ _ _ => mark "write_images" tt)
    (fun _ _ _ => mark "write_vector_field" tt)
    2 tt tt tt tt tt "out" "tif" "8bit" 3 true false []
  = (tt, ["write_vector_field"; "write_images";
          "compute_helix_and_transverse_angles";
          "rotate_vectors_to_new_axis";
          "compute_fraction_anisotropy"]%string).
Proof. reflexivity. Qed.

(** C2.  The failing input: not in test mode, [OUTPUT_FORMAT] jp2, vectors
    asked for, and every artifact of slice 5 present (the three jp2
    images and the eigenvector file).  The guard looks for the [.tif]
    names, finds none, and the slice is computed and written again:
    every helper runs, the two writers included. *)
Lemma jp2_slice_done_is_recomputed :
  forallb (listed slice_5_done_jp2)
    [ "out/HA/HA_000005.jp2"; "out/IA/IA_000005.jp2";
      "out/FA/FA_000005.jp2"; "out/eigen_vec/eigen_vec_000005.npy" ]%string
    = true /\
  compute_slice_angles_and_anisotropy (list string) listed
    unit unit unit unit
    (mark "compute_fraction_anisotropy" tt)
    (fun v _ => mark "rotate_vectors_to_new_axis" tt v)
    (fun v _ => mark "compute_helix_and_transverse_angles" (tt, tt) v)
    (fun _ _ _ _ => mark "plot_images" tt)
    (fun _ _ _ _ _ _ _ => mark "write_images" tt)
    (fun _ _ _ => mark "write_vector_field" tt)
    2 tt tt tt tt tt "out" "jp2" "8bit" 3 true false slice_5_done_jp2
  = (tt, ("write_vector_field" :: "write_images" ::
          "compute_helix_and_transverse_angles" ::
          "rotate_vectors_to_new_axis" ::
          "compute_fraction_anisotropy" :: slice_5_done_jp2)%string) /\
  compute_slice_angles_and_anisotropy (list string) listed
    unit unit unit unit
    (mark "compute_fraction_anisotropy" tt)
    (fun v _ => mark "rotate_vectors_to_new_axis" tt v)
    (fun v _ => mark "compute_helix_and_transverse_angles" (tt, tt) v)
    (fun _ _ _ _ => mark "plot_images" tt)
    (fun _ _ _ _ _ _ _ => mark "write_images" tt)
    (fun _ _ _ => mark "write_vector_field" tt)
    2 tt tt tt tt tt "out" "jp2" "8bit" 3 true false slice_5_done_jp2
  <> (tt, slice_5_done_jp2).
Proof.
  split; [reflexivity|]. split; [reflexivity|].
  vm_compute. discriminate.
Qed.

(** * Part III: further properties of the code *)

(** ** The tracer loop *)

Lemma trace_step_break_same vf s thr st st' :
  trace_step vf s thr st = Break st' -> st' = st.
Proof.
  intros H. pose proof (trace_step_points vf s thr st) as Hp.
  now rewrite H in Hp.
Qed.

(** A run of [n + m] passes is a run of [n] passes followed by a run of
    [m] passes: once the loop has broken, further passes break again at
    the same state. *)
Theorem trace_loop_add vf s thr n m st :
  trace_loop vf s thr (n + m) st =
  trace_loop vf s thr m (trace_loop vf s thr n st).
Proof.
  revert st. induction n as [|n IH]; intros st; simpl; [reflexivity|].
  destruct (trace_step vf s thr st) as [st'|st'] eqn:E.
  - apply IH.
  - pose proof (trace_step_break_same _ _ _ _ _ E) as ->.
    symmetry. now apply trace_loop_break.
Qed.

Lemma trace_loop_appends vf s thr n st :
  exists tail,
    consecutive_points (trace_loop vf s thr n st) =
      consecutive_points st ++ tail /\
    (List.length tail <= n)%nat.
Proof.
  revert st. induction n as [|n IH]; intros st; simpl.
  - exists []. split; [now rewrite app_nil_r | simpl; lia].
  - pose proof (trace_step_points vf s thr st) as Hp.
    destruct (trace_step vf s thr st) as [st'|st'].
    + destruct Hp as (dv & _ & _ & Hpts & _).
      destruct (IH st') as (tail & Ht & Hl).
      exists (point_add (current_point st) dv :: tail). split.
      * rewrite Ht, Hpts, <- app_assoc. reflexivity.
      * simpl. lia.
    + subst st'. exists []. split; [now rewrite app_nil_r | simpl; lia].
Qed.

(** The polyline starts with the seed and has between 1 and
    [num_steps + 1] points. *)
Theorem find_consecutive_points_seed_first seed vf num_steps s thr :
  exists tail,
    find_consecutive_points seed vf num_steps s thr =
      float_point seed :: tail /\
    (List.length tail <= num_steps)%nat.
Proof.
  unfold find_consecutive_points.
  destruct (trace_loop_appends vf s thr num_steps (initial_state seed))
    as (tail & Ht & Hl).
  exists tail. split; [exact Ht | exact Hl].
Qed.

(** Asking for more steps only adds points at the end of the polyline. *)
Theorem more_steps_extend_polyline seed vf n m s thr :
  exists tail,
    find_consecutive_points seed vf (n + m) s thr =
    find_consecutive_points seed vf n s thr ++ tail.
Proof.
  unfold find_consecutive_points. rewrite trace_loop_add.
  destruct (trace_loop_appends vf s thr m
              (trace_loop vf s thr n (initial_state seed)))
    as (tail & Ht & _).
  now exists tail.
Qed.

Lemma defined_scale_none (v : nvec) (s : Q) :
  isnan_any v = true -> defined (nvec_scale v s) = None.
Proof. destruct v as [[[a|] [b|]] [c|]]; simpl; congruence. Qed.

(** A seed outside the volume, or one whose vector has a NaN component,
    gives the seed alone, whatever the number of steps. *)
Theorem seed_without_direction_single_point seed vf num_steps s thr :
  in_bounds vf seed = false \/ isnan_any (vf_get vf seed) = true ->
  find_consecutive_points seed vf num_steps s thr = [float_point seed].
Proof.
  intros H. unfold find_consecutive_points.
  rewrite trace_loop_break; [reflexivity|].
  unfold trace_step. simpl. rewrite round_float_point.
  destruct (in_bounds vf seed); [|reflexivity].
  destruct H as [H | H]; [discriminate|].
  now rewrite (defined_scale_none _ s H).
Qed.

Lemma seed_without_direction_single_point_witness :
  find_consecutive_points (0, 0, 7) row_field 4 1 60 = [float_point (0, 0, 7)].
Proof.
  apply (seed_without_direction_single_point (0, 0, 7) row_field 4%nat 1%Q
           60%Q).
  left. reflexivity.
Defined.

(** The tracer reads the field inside the volume only: two fields of one
    shape that agree on the voxels of the volume give the same polyline. *)
Theorem find_consecutive_points_ext seed vf vf' num_steps s thr :
  shape1 vf = shape1 vf' -> shape2 vf = shape2 vf' ->
  shape3 vf = shape3 vf' ->
  (forall p, in_bounds vf p = true -> vf_get vf p = vf_get vf' p) ->
  find_consecutive_points seed vf num_steps s thr =
  find_consecutive_points seed vf' num_steps s thr.
Proof.
  intros H1 H2 H3 Hget.
  assert (Hb : forall p, in_bounds vf' p = in_bounds vf p).
  { intros [[z y] x]. unfold in_bounds. now rewrite H1, H2, H3. }
  assert (Hstep : forall st,
            trace_step vf s thr st = trace_step vf' s thr st).
  { intros st. unfold trace_step. rewrite Hb.
    destruct (in_bounds vf (round_point (current_point st))) eqn:E;
      [|reflexivity].
    rewrite (Hget _ E).
    destruct (defined _) as [dv|]; [|reflexivity].
    destruct (angle_stop _ _ _); [reflexivity|].
    now rewrite Hb. }
  unfold find_consecutive_points. f_equal.
  generalize (initial_state seed).
  induction num_steps as [|n IH]; intros st; simpl; [reflexivity|].
  rewrite <- Hstep. destruct (trace_step vf s thr st); [apply IH | reflexivity].
Qed.

Lemma find_consecutive_points_ext_witness :
  find_consecutive_points (0, 0, 4) row_field 3 1 60 =
  find_consecutive_points (0, 0, 4) row_field_nan_outside 3 1 60.
Proof.
  apply (find_consecutive_points_ext (0, 0, 4) row_field
           row_field_nan_outside 3%nat 1%Q 60%Q);
    try reflexivity.
  intros [[z y] x] H. unfold in_bounds in H. simpl in *.
  destruct (0 <=? z)%Z eqn:E1; [|discriminate].
  destruct (z <? 1)%Z eqn:E2; [|discriminate].
  destruct (0 <=? y)%Z eqn:E3; [|discriminate].
  destruct (y <? 1)%Z eqn:E4; [|discriminate].
  destruct (0 <=? x)%Z eqn:E5; [|discriminate].
  destruct (x <? 5)%Z eqn:E6; [|discriminate].
  replace (z =? 0)%Z with true by (symmetry; apply Z.eqb_eq; lia).
  replace (y =? 0)%Z with true by (symmetry; apply Z.eqb_eq; lia).
  reflexivity.
Defined.

(** ** [angle_between_vectors] *)

Local Open Scope R_scope.

(** The angle does not depend on the order of the two vectors. *)
Theorem angle_between_vectors_sym (a b : rvec) :
  angle_between_vectors a b = angle_between_vectors b a.
Proof.
  unfold angle_between_vectors, cos_theta.
  replace (dot_product b a) with (dot_product a b)
    by (unfold dot_product; ring).
  replace (floored_magnitude b * floored_magnitude a)
    with (floored_magnitude a * floored_magnitude b) by ring.
  reflexivity.
Qed.

(** Vectors whose dot product is 0 make an angle of 90 degrees; the zero
    vector does so with every vector, the magnitude floor standing in for
    its length. *)
Theorem angle_orthogonal (a b : rvec) :
  dot_product a b = 0 -> angle_between_vectors a b = 90.
Proof.
  intros H. unfold angle_between_vectors, cos_theta. rewrite H.
  unfold Rdiv. rewrite Rmult_0_l. rewrite clip_id by lra.
  rewrite acos_0. unfold rad2deg. field. apply PI_neq0.
Qed.

Lemma angle_orthogonal_witness :
  angle_between_vectors (RVec 0 0 0) (RVec 1 2 3) = 90.
Proof.
  apply (angle_orthogonal (RVec 0 0 0) (RVec 1 2 3)).
  unfold dot_product. simpl. ring.
Defined.

Lemma clip_opp (x : R) : clip (- x) (-1) 1 = - clip x (-1) 1.
Proof.
  unfold clip, Rmin, Rmax.
  repeat (destruct (Rle_dec _ _)); lra.
Qed.

(** Reversing one of the vectors turns the angle into its supplement. *)
Theorem angle_opposite_supplementary (a b : rvec) :
  angle_between_vectors a (rvec_opp b) = 180 - angle_between_vectors a b.
Proof.
  unfold angle_between_vectors, cos_theta, floored_magnitude.
  rewrite dot_product_opp_r, magnitude_opp.
  replace (- dot_product a b /
           (Rmax (magnitude a) epsilon * Rmax (magnitude b) epsilon))
    with (- (dot_product a b /
           (Rmax (magnitude a) epsilon * Rmax (magnitude b) epsilon)))
    by (unfold Rdiv; ring).
  rewrite clip_opp, acos_opp. unfold rad2deg. field. apply PI_neq0.
Qed.

(** Above the magnitude floor the angle depends on the direction of a
    vector only: a positive multiple of [a] that is still at least
    [epsilon] long makes the same angle with [b] as [a] does. *)
Theorem angle_positive_multiple (a a' b : rvec) (k : R) :
  0 < k -> r0 a' = r0 a * k -> r1 a' = r1 a * k -> r2 a' = r2 a * k ->
  epsilon <= magnitude a -> epsilon <= magnitude a' ->
  angle_between_vectors a' b = angle_between_vectors a b.
Proof.
  intros Hk H0 H1 H2 Ha Ha'.
  pose proof (magnitude_scaled a a' k Hk H0 H1 H2) as Hm.
  pose proof epsilon_pos as He.
  pose proof (floored_magnitude_pos b) as Hb.
  unfold angle_between_vectors, cos_theta.
  do 3 f_equal.
  unfold floored_magnitude in *.
  rewrite (Rmax_left (magnitude a')) by assumption.
  rewrite (Rmax_left (magnitude a)) by assumption.
  rewrite Hm. unfold dot_product. rewrite H0, H1, H2.
  field. split; lra.
Qed.

Lemma angle_positive_multiple_witness :
  angle_between_vectors (RVec 0 0 2) (RVec 0 1 1) =
  angle_between_vectors (RVec 0 0 1) (RVec 0 1 1).
Proof.
  assert (Hm : forall x, 1 <= x -> epsilon <= magnitude (RVec 0 0 x)).
  { intros x Hx. unfold magnitude. simpl.
    replace (0 * 0 + 0 * 0 + x * x) with (x * x) by ring.
    rewrite sqrt_square by lra. pose proof epsilon_lt_1. lra. }
  apply (angle_positive_multiple (RVec 0 0 1) (RVec 0 0 2) (RVec 0 1 1) 2);
    simpl; try lra; apply Hm; lra.
Defined.

(** ** [scale_points] and the seeding loop of [amira_writer] *)

Local Open Scope Z_scope.

(** Scaling by [a] and then by [b] is scaling by [a * b]: the same lists
    of the same lengths, with equal coordinates. *)
Theorem scale_points_compose (pts : list (list point)) (a b : Q) :
  Forall2 (Forall2 point_eq)
    (scale_points (scale_points pts a) b) (scale_points pts (a * b)).
Proof.
  rewrite !scale_points_map, map_map.
  induction pts as [|l pts IH]; simpl; constructor; [|exact IH].
  rewrite map_map.
  induction l as [|p l IHl]; simpl; constructor; [|exact IHl].
  destruct p as [[x y] z]. unfold scale_point, point_eq.
  repeat split; ring.
Qed.

Lemma py_int_Qeq (x y : Q) : (x == y)%Q -> py_int x = py_int y.
Proof.
  destruct x as [a d], y as [b e]. unfold Qeq, py_int. simpl. intros H.
  rewrite <- (Z.quot_mul_cancel_r a (Z.pos d) (Z.pos e)) by lia.
  rewrite H, (Z.mul_comm (Z.pos d)).
  apply Z.quot_mul_cancel_r; lia.
Qed.

Lemma point_index_shift_point (start_index : Z) (p : point) :
  point_index start_index (shift_point start_index p) = int_point p.
Proof.
  destruct p as [[z y] x]. unfold point_index, shift_point, int_point.
  f_equal. f_equal. apply py_int_Qeq. ring.
Qed.

(** The loop over the seeds is a map followed by a filter: the shifted
    polylines of the seeds, in the order of the seeds, those shorter than
    the threshold left out. *)
Lemma trace_seeds_filter_map vf start_index num_steps s thr min_length seeds :
  trace_seeds vf start_index num_steps s thr min_length seeds =
  filter (fun cp => min_length <=? Z.of_nat (List.length cp))
    (map (fun seed =>
            map (shift_point start_index)
              (find_consecutive_points seed vf num_steps s thr))
       seeds).
Proof.
  unfold trace_seeds.
  assert (H : forall acc : list (list point),
    fold_left
      (fun consecutive_points_list seed =>
         if min_length <=?
              Z.of_nat (List.length
                          (map (shift_point start_index)
                             (find_consecutive_points seed vf num_steps s
                                thr)))
         then consecutive_points_list ++
              [map (shift_point start_index)
                 (find_consecutive_points seed vf num_steps s thr)]
         else consecutive_points_list)
      seeds acc =
    acc ++
    filter (fun cp : list point => min_length <=? Z.of_nat (List.length cp))
      (map (fun seed =>
              map (shift_point start_index)
                (find_consecutive_points seed vf num_steps s thr))
         seeds)).
  { induction seeds as [|seed seeds IH]; intros acc; simpl.
    - now rewrite app_nil_r.
    - rewrite IH.
      destruct (min_length <=? _); [|reflexivity].
      now rewrite <- app_assoc. }
  apply (H []).
Qed.

(** Every polyline kept comes from one of the seeds, has at least
    [segment_min_length_threshold] and at most [num_steps + 1] points, and
    no more polylines are kept than there are seeds. *)
Theorem trace_seeds_kept_polylines vf start_index num_steps s thr
    min_length seeds :
  let kept := trace_seeds vf start_index num_steps s thr min_length seeds in
  (List.length kept <= List.length seeds)%nat /\
  Forall (fun cp =>
            min_length <= Z.of_nat (List.length cp) /\
            (1 <= List.length cp <= num_steps + 1)%nat /\
            exists seed, In seed seeds /\
              cp = map (shift_point start_index)
                     (find_consecutive_points seed vf num_steps s thr))
    kept.
Proof.
  intros kept. unfold kept. rewrite trace_seeds_filter_map. split.
  - etransitivity; [apply filter_length_le|]. now rewrite length_map.
  - apply Forall_forall. intros cp Hin.
    apply filter_In in Hin as [Hin Hlen].
    apply in_map_iff in Hin as (seed & <- & Hseed).
    split; [now apply Z.leb_le|]. split.
    + rewrite length_map.
      destruct (trace_loop_appends vf s thr num_steps (initial_state seed))
        as (tail & Ht & Hl).
      unfold find_consecutive_points. rewrite Ht. simpl. lia.
    + now exists seed.
Qed.

(** The voxels at which the helix angle and the vector are read for the
    [@6] and [@7] lines are inside the volume, for seeds inside the
    volume: the shift by [start_index] is undone and the truncated
    coordinates of a recorded point are in range. *)
Theorem angle_lookups_inside_volume vf start_index num_steps s thr
    min_length seeds :
  Forall (fun seed => in_bounds vf seed = true) seeds ->
  Forall (Forall (fun p => in_bounds vf (point_index start_index p) = true))
    (trace_seeds vf start_index num_steps s thr min_length seeds).
Proof.
  intros Hseeds. rewrite trace_seeds_filter_map.
  apply Forall_forall. intros cp Hin.
  apply filter_In in Hin as [Hin _].
  apply in_map_iff in Hin as (seed & <- & Hseed).
  rewrite Forall_forall in Hseeds.
  apply Forall_forall. intros p Hp.
  apply in_map_iff in Hp as (q & <- & Hq).
  rewrite point_index_shift_point.
  assert (Hall : Forall (fun p => in_bounds vf (round_point p) = true)
                   (find_consecutive_points seed vf num_steps s thr)).
  { unfold find_consecutive_points. apply trace_loop_in_bounds. simpl.
    constructor; [|constructor]. rewrite round_float_point. auto. }
  rewrite Forall_forall in Hall.
  pose proof (int_point_in_bounds vf q (Hall q Hq)) as H.
  now rewrite round_float_point in H.
Qed.

Lemma angle_lookups_inside_volume_witness :
  Forall (Forall (fun p => in_bounds row_field (point_index 7 p) = true))
    (trace_seeds row_field 7 3 1 60 2 [(0, 0, 4); (0, 0, 0)]).
Proof.
  apply (angle_lookups_inside_volume row_field 7 3%nat 1%Q 60%Q 2
           [(0, 0, 4); (0, 0, 0)]).
  repeat constructor.
Defined.

(** Every point of a polyline, rounded or truncated to integers, is a
    voxel of the volume, for a seed inside the volume. *)
Theorem polyline_points_inside_volume vf seed num_steps s thr :
  in_bounds vf seed = true ->
  Forall (fun p => in_bounds vf (round_point p) = true /\
                   in_bounds vf (int_point p) = true)
    (find_consecutive_points seed vf num_steps s thr).
Proof.
  intros Hs.
  assert (Hall : Forall (fun p => in_bounds vf (round_point p) = true)
                   (find_consecutive_points seed vf num_steps s thr)).
  { unfold find_consecutive_points. apply trace_loop_in_bounds. simpl.
    constructor; [|constructor]. now rewrite round_float_point. }
  eapply Forall_impl; [|exact Hall].
  intros p Hp. split; [exact Hp|].
  pose proof (int_point_in_bounds vf p Hp) as H.
  now rewrite round_float_point in H.
Qed.

Lemma polyline_points_inside_volume_witness :
  Forall (fun p => in_bounds row_field (round_point p) = true /\
                   in_bounds row_field (int_point p) = true)
    (find_consecutive_points (0, 0, 4) row_field 3 (1 # 3) 60).
Proof.
  apply (polyline_points_inside_volume row_field (0, 0, 4) 3%nat (1 # 3)%Q
           60%Q).
  reflexivity.
Defined.

(** ** [amira_writer]: alignment, seeds and point attributes *)

Local Open Scope Z_scope.

(** Aligning an aligned field changes nothing: after the flip no first
    component is positive, so a second flip finds nothing to negate. *)
Theorem align_vectors_idempotent (vf : vector_field) (z y x : Z) :
  vf_at (align_vectors (align_vectors vf)) z y x =
  vf_at (align_vectors vf) z y x.
Proof.
  simpl. destruct (vf_at vf z y x) as [[[a|] b] c]; simpl; [|reflexivity].
  destruct (Qgt_bool a 0) eqn:E; simpl.
  - assert (H : Qgt_bool (a * -1) 0 = false).
    { unfold Qgt_bool in *. apply negb_true_iff in E.
      apply negb_false_iff. apply Qle_bool_iff.
      assert (Ha : ~ (a <= 0)%Q).
      { intros Hle. apply Qle_bool_iff in Hle. congruence. }
      apply Qnot_le_lt in Ha.
      setoid_replace (a * -1)%Q with (- a)%Q by ring.
      apply Qle_minus_iff. setoid_replace (0 + - - a)%Q with a by ring.
      now apply Qlt_le_weak. }
    now rewrite H.
  - now rewrite E.
Qed.

Lemma align_vectors_nonpositive_witness : (1 * -1 <= 0)%Q.
Proof.
  apply (align_vectors_nonpositive
           (VectorField 1 1 1 (fun _ _ _ => (Some 1%Q, Some 2%Q, None)))
           0 0 0 (1 * -1)%Q (Some (2 * -1)%Q) None).
  reflexivity.
Defined.

Local Open Scope R_scope.

Lemma acos_le_PI2 (x : R) : 0 <= x <= 1 -> acos x <= PI / 2.
Proof.
  intros [Hlo Hhi].
  pose proof (acos_bound x) as [Hb0 Hb1].
  pose proof PI_RGT_0 as Hpi.
  destruct (Rle_lt_dec (acos x) (PI / 2)) as [H | H]; [exact H|].
  exfalso.
  assert (Hc : cos (acos x) < cos (PI / 2))
    by (apply cos_decreasing_1; lra).
  rewrite cos_acos, cos_PI2 in Hc by lra. lra.
Qed.

Lemma Rabs_le_magnitude (a b c : Q) :
  Rabs (Q2R a) <= magnitude (to_rvec (a, b, c)).
Proof.
  unfold magnitude. simpl.
  rewrite <- sqrt_Rsqr_abs. apply sqrt_le_1_alt. unfold Rsqr. nra.
Qed.

(** The z-angle written for a point, when it is not NaN, lies between 0
    and 90 degrees. *)
Theorem z_angle_of_range (v : nvec) (t : R) :
  z_angle_of v = Some t -> 0 <= t <= 90.
Proof.
  unfold z_angle_of. destruct (defined v) as [[[a b] c]|]; [|discriminate].
  destruct (Req_dec_T _ 0) as [|Hn]; [discriminate|].
  intros [= <-].
  pose proof (magnitude_nonneg (to_rvec (a, b, c))) as Hm.
  pose proof (Rabs_le_magnitude a b c) as Hle.
  pose proof (Rabs_pos (Q2R a)) as Hpos.
  set (n := magnitude (to_rvec (a, b, c))) in *.
  assert (Hn0 : 0 < n) by lra.
  assert (Hq : 0 <= Rabs (Q2R a) / n <= 1).
  { split.
    - apply Rmult_le_pos; [exact Hpos|].
      apply Rlt_le, Rinv_0_lt_compat, Hn0.
    - apply (Rmult_le_reg_r n); [exact Hn0|].
      unfold Rdiv. rewrite Rmult_assoc, Rinv_l by lra. lra. }
  pose proof (acos_bound (Rabs (Q2R a) / n)) as [Hb0 _].
  pose proof (acos_le_PI2 _ Hq) as Hb1.
  pose proof PI_RGT_0 as Hpi.
  split.
  - rewrite <- rad2deg_0. now apply rad2deg_mono.
  - apply Rle_trans with (rad2deg (PI / 2)); [now apply rad2deg_mono|].
    unfold rad2deg. right. field. lra.
Qed.



Lemma z_angle_of_range_witness :
  0 <= rad2deg (acos (Rabs (Q2R 1) / magnitude (to_rvec (1, 0, 0)%Q))) <= 90.
Proof.
  apply (z_angle_of_range (Some 1%Q, Some 0%Q, Some 0%Q)).
  unfold z_angle_of. simpl defined. cbv iota beta.
  destruct (Req_dec_T (magnitude (to_rvec (1%Q, 0%Q, 0%Q))) 0) as [E|];
    [|reflexivity].
  exfalso.
  assert (Hm : magnitude (to_rvec (1, 0, 0)%Q) = 1).
  { unfold magnitude, to_rvec, Q2R. simpl.
    transitivity (sqrt 1); [f_equal; lra | apply sqrt_1]. }
  rewrite Hm in E. lra.
Defined.

Local Close Scope R_scope.
Local Open Scope nat_scope.

Lemma length_flat_map_map {T U V : Type} (f : U -> V) (g : T -> list U)
    (l : list T) :
  List.length (flat_map (fun x => map f (g x)) l) =
  list_sum (map (fun x => List.length (g x)) l).
Proof.
  induction l as [|x l IH]; simpl; [reflexivity|].
  now rewrite length_app, length_map, IH.
Qed.

Lemma count_points_scaled_reordered (cpl : list (list point)) (s : Q) :
  count_points (map (map reorder_point) (scale_points cpl s)) =
  count_points cpl.
Proof.
  rewrite !count_points_sum, scale_points_map, !map_map. f_equal.
  apply map_ext. intros seg. now rewrite !length_map.
Qed.

(** A run that gets past the seeding writes a file that is consistent:
    no more polylines than seeds asked for, and as many helix-angle
    values and as many z-angle values as the POINT count it declares. *)
Theorem amira_writer_attribute_counts
    (choice : nat -> nat -> list nat) (HA_volume : Z -> Z -> Z -> Q)
    (float_str : Q -> string) (angle_str : option R -> string)
    (params : parameters) (npy_files : list string) (vf : vector_field)
    (start_index bin_factor : option Z) (num_ini_points num_steps : nat)
    (segment_length angle_threshold : Q)
    (segment_min_length_threshold : Z) :
  choice_without_replacement choice ->
  npy_files <> [] ->
  num_ini_points <= List.length (valid_indices vf) ->
  exists cpl HA_angle z_angle,
    amira_writer choice HA_volume float_str angle_str (Some params)
      npy_files vf start_index bin_factor num_ini_points num_steps
      segment_length angle_threshold segment_min_length_threshold =
    Done (write_am_file (option R) float_str angle_str cpl HA_angle z_angle)
    /\
    List.length cpl <= num_ini_points /\
    List.length HA_angle = count_points cpl /\
    List.length z_angle = count_points cpl.
Proof.
  intros Hchoice Hfiles Hle.
  destruct (random_points_done choice (align_vectors vf) num_ini_points
              Hchoice) as (seeds & Hrp & Hlen & _ & _).
  { now rewrite valid_indices_align. }
  unfold amira_writer.
  destruct npy_files as [|f fs]; [contradiction|].
  rewrite Hrp.
  eexists. eexists. eexists. split; [reflexivity|].
  rewrite count_points_scaled_reordered. split; [|split].
  - rewrite length_map, scale_points_map, length_map.
    rewrite trace_seeds_filter_map.
    etransitivity; [apply filter_length_le|].
    rewrite length_map. lia.
  - unfold HA_angles.
    rewrite (length_flat_map_map _ (fun seg : list point => seg)).
    now rewrite count_points_sum.
  - unfold z_angles.
    rewrite (length_flat_map_map _ (fun seg : list point => seg)).
    now rewrite count_points_sum.
Qed.

Lemma amira_writer_attribute_counts_witness :
  exists cpl HA_angle z_angle,
    amira_writer first_indices (fun _ _ _ => 0%Q)
      (fun _ => EmptyString) (fun _ => EmptyString)
      (Some (Parameters 1)) ["eigen_vec_000000.npy"%string] row_field
      None None 2 3 1 60 1 =
    Done (write_am_file (option R) (fun _ => EmptyString)
            (fun _ => EmptyString) cpl HA_angle z_angle) /\
    List.length cpl <= 2 /\
    List.length HA_angle = count_points cpl /\
    List.length z_angle = count_points cpl.
Proof.
  apply (amira_writer_attribute_counts first_indices
           (fun _ _ _ => 0%Q) (fun _ => EmptyString) (fun _ => EmptyString)
           (Parameters 1) ["eigen_vec_000000.npy"%string] row_field
           None None 2%nat 3%nat 1%Q 60%Q 1%Z).
  - exact first_indices_without_replacement.
  - discriminate.
  - vm_compute. lia.
Defined.

Lemma length_range (n : nat) : List.length (range n) = n.
Proof. unfold range. now rewrite length_map, length_seq. Qed.

Lemma length_all_voxels (vf : vector_field) :
  List.length (all_voxels vf) =
  Z.to_nat (shape1 vf) * (Z.to_nat (shape2 vf) * Z.to_nat (shape3 vf)).
Proof.
  unfold all_voxels.
  rewrite flat_map_constant_length
    with (c := Z.to_nat (shape2 vf) * Z.to_nat (shape3 vf)).
  - now rewrite length_range.
  - intros z _.
    rewrite flat_map_constant_length with (c := Z.to_nat (shape3 vf)).
    + now rewrite length_range.
    + intros y _. now rewrite length_map, length_range.
Qed.

(** Asking for more seeds than the volume has voxels ends the run in the
    exit for insufficient valid points, whatever the vectors are. *)
Theorem more_seeds_than_voxels_exits
    (choice : nat -> nat -> list nat) (HA_volume : Z -> Z -> Z -> Q)
    (float_str : Q -> string) (angle_str : option R -> string)
    (params : parameters) (npy_files : list string) (vf : vector_field)
    (start_index bin_factor : option Z) (num_ini_points num_steps : nat)
    (segment_length angle_threshold : Q)
    (segment_min_length_threshold : Z) :
  npy_files <> [] ->
  Z.to_nat (shape1 vf) * (Z.to_nat (shape2 vf) * Z.to_nat (shape3 vf)) <
    num_ini_points ->
  amira_writer choice HA_volume float_str angle_str (Some params)
    npy_files vf start_index bin_factor num_ini_points num_steps
    segment_length angle_threshold segment_min_length_threshold =
  Exit InsufficientValidPoints.
Proof.
  intros Hfiles Hlt. unfold amira_writer.
  destruct npy_files as [|f fs]; [contradiction|].
  unfold random_points. rewrite valid_indices_align.
  assert (Hlen : List.length (valid_indices vf) < num_ini_points).
  { unfold valid_indices.
    eapply Nat.le_lt_trans; [apply filter_length_le|].
    now rewrite length_all_voxels. }
  apply Nat.ltb_lt in Hlen. now rewrite Hlen.
Qed.

Lemma more_seeds_than_voxels_exits_witness :
  amira_writer first_indices (fun _ _ _ => 0%Q)
    (fun _ => EmptyString) (fun _ => EmptyString)
    (Some (Parameters 1)) ["eigen_vec_000000.npy"%string] row_field
    None None 6 3 1 60 1 =
  Exit InsufficientValidPoints.
Proof.
  apply (more_seeds_than_voxels_exits first_indices
           (fun _ _ _ => 0%Q) (fun _ => EmptyString) (fun _ => EmptyString)
           (Parameters 1) ["eigen_vec_000000.npy"%string] row_field
           None None 6%nat 3%nat 1%Q 60%Q 1%Z).
  - discriminate.
  - vm_compute. lia.
Defined.

(** ** A seed on a zero vector *)

Local Open Scope Z_scope.

Lemma py_int_inject_Z (z : Z) : py_int (inject_Z z) = z.
Proof. unfold py_int, inject_Z. simpl. apply Z.quot_1_r. Qed.

Lemma np_round_Qeq (x y : Q) : (x == y)%Q -> np_round x = np_round y.
Proof.
  intros H. unfold np_round. rewrite (Qfloor_comp x y H).
  assert (Hc : Qcompare (x - inject_Z (Qfloor y)) (1 # 2) =
               Qcompare (y - inject_Z (Qfloor y)) (1 # 2)).
  { apply Qcompare_comp; [|reflexivity]. rewrite H. reflexivity. }
  now rewrite Hc.
Qed.

Lemma zero_step_stays (seed : voxel) (dv : point) :
  point_eq dv (0, 0, 0)%Q ->
  point_eq (float_point seed) (point_add (float_point seed) dv) /\
  int_point (point_add (float_point seed) dv) = seed /\
  round_point (point_add (float_point seed) dv) = seed.
Proof.
  destruct seed as [[z y] x], dv as [[a b] c]. simpl.
  intros (Ha & Hb & Hc).
  assert (Hz : (inject_Z z + a == inject_Z z)%Q) by (rewrite Ha; ring).
  assert (Hy : (inject_Z y + b == inject_Z y)%Q) by (rewrite Hb; ring).
  assert (Hx : (inject_Z x + c == inject_Z x)%Q) by (rewrite Hc; ring).
  split; [|split].
  - repeat split; symmetry; assumption.
  - rewrite (py_int_Qeq _ _ Hz), (py_int_Qeq _ _ Hy), (py_int_Qeq _ _ Hx).
    now rewrite !py_int_inject_Z.
  - rewrite (np_round_Qeq _ _ Hz), (np_round_Qeq _ _ Hy),
      (np_round_Qeq _ _ Hx).
    now rewrite !np_round_inject_Z.
Qed.

Lemma resting_step vf s thr seed st a b c :
  in_bounds vf seed = true ->
  vf_get vf seed = (Some a, Some b, Some c) ->
  (a == 0)%Q -> (b == 0)%Q -> (c == 0)%Q ->
  resting seed st ->
  exists st',
    trace_step vf s thr st = Next st' /\
    resting seed st' /\
    List.length (consecutive_points st') =
      S (List.length (consecutive_points st)).
Proof.
  intros Hb Hv Ha Hb0 Hc (Hcur & Hpts & Htmp).
  assert (Hdv : point_eq (a * s, b * s, c * s)%Q (0, 0, 0)%Q).
  { simpl. rewrite Ha, Hb0, Hc. repeat split; ring. }
  destruct (zero_step_stays seed _ Hdv) as (Heq & Hint & Hround).
  rewrite (trace_step_advance vf s thr st (a * s, b * s, c * s)%Q).
  - rewrite Hcur, Hround, Hb, Hint.
    eexists. split; [reflexivity|]. unfold resting.
    cbn [current_point consecutive_points direction_vector_tmp].
    split; [split; [|split]|].
    + reflexivity.
    + apply Forall_app. split; [exact Hpts|].
      constructor; [exact Heq | constructor].
    + destruct Hdv as (H1 & H2 & H3).
      unfold tmp_any, is_zero.
      apply Qeq_bool_iff in H1, H2, H3. now rewrite H1, H2, H3.
    + rewrite length_app. simpl. lia.
  - now rewrite Hcur, round_float_point.
  - unfold step_vector. now rewrite Hcur, round_float_point, Hv.
  - unfold angle_stop. now rewrite Htmp.
Qed.

(** A seed inside the volume whose vector is zero never moves: the
    polyline is the seed recorded [num_steps + 1] times, as no angle is
    tested against a zero step vector. *)
Theorem zero_vector_seed_repeats vf seed num_steps s thr a b c :
  in_bounds vf seed = true ->
  vf_get vf seed = (Some a, Some b, Some c) ->
  (a == 0)%Q -> (b == 0)%Q -> (c == 0)%Q ->
  List.length (find_consecutive_points seed vf num_steps s thr) =
    S num_steps /\
  Forall (point_eq (float_point seed))
    (find_consecutive_points seed vf num_steps s thr).
Proof.
  intros Hb Hv Ha Hb0 Hc. unfold find_consecutive_points.
  assert (H : forall n st, resting seed st ->
            resting seed (trace_loop vf s thr n st) /\
            List.length (consecutive_points (trace_loop vf s thr n st)) =
              (List.length (consecutive_points st) + n)%nat).
  { induction n as [|n IH]; intros st Hst; simpl.
    - split; [exact Hst | lia].
    - destruct (resting_step vf s thr seed st a b c Hb Hv Ha Hb0 Hc Hst)
        as (st' & Hstep & Hst' & Hlen).
      rewrite Hstep. destruct (IH st' Hst') as [Hr Hl].
      split; [exact Hr | lia]. }
  destruct (H num_steps (initial_state seed)) as [(_ & Hpts & _) Hl].
  - split; [reflexivity|]. split; [|reflexivity].
    simpl. constructor; [|constructor].
    destruct seed as [[z y] x]. simpl. repeat split; reflexivity.
  - split; [exact Hl | exact Hpts].
Qed.

Lemma zero_vector_seed_repeats_witness :
  List.length
    (find_consecutive_points (0, 0, 2)
       (VectorField 1 1 5 (fun _ _ _ => (Some 0%Q, Some 0%Q, Some 0%Q)))
       4 20 60) = 5%nat /\
  Forall (point_eq (float_point (0, 0, 2)))
    (find_consecutive_points (0, 0, 2)
       (VectorField 1 1 5 (fun _ _ _ => (Some 0%Q, Some 0%Q, Some 0%Q)))
       4 20 60).
Proof.
  apply (zero_vector_seed_repeats
           (VectorField 1 1 5 (fun _ _ _ => (Some 0%Q, Some 0%Q, Some 0%Q)))
           (0, 0, 2) 4%nat 20%Q 60%Q 0%Q 0%Q 0%Q); reflexivity.
Defined.

(** ** [compute_slice_angles_and_anisotropy]: what each mode leaves alone *)

Local Open Scope Z_scope.

Section SliceModes.

Variable world : Type.
Variables path_exists path_exists' : world -> string -> bool.
Variables vector_slice image eigen_slice center : Type.
Variable compute_fraction_anisotropy : eigen_slice -> io world image.
Variable rotate_vectors_to_new_axis :
  vector_slice -> center -> io world vector_slice.
Variable compute_helix_and_transverse_angles :
  vector_slice -> center -> io world (image * image).
Variables plot_images plot_images' :
  image -> image -> image -> image -> center -> io world unit.
Variables write_images write_images' :
  image -> image -> image -> Z -> string -> string -> string -> Z ->
  io world unit.
Variables write_vector_field write_vector_field' :
  vector_slice -> Z -> string -> Z -> io world unit.

(** In test mode the files that exist are not looked at and neither
    writer is called: the outcome is the same whatever [os.path.exists]
    answers, whatever the two writers would do, and whatever the output
    directory, format, type, start index and [IS_VECTORS] are. *)
Theorem test_mode_reads_and_writes_no_file
    (z : Z) (vector_field_slice : vector_slice) (img_slice : image)
    (center_point : center) (eigen_val_slice : eigen_slice)
    (center_vec : center)
    (OUTPUT_DIR OUTPUT_FORMAT OUTPUT_TYPE : string) (start_index : Z)
    (IS_VECTORS : bool)
    (OUTPUT_DIR' OUTPUT_FORMAT' OUTPUT_TYPE' : string) (start_index' : Z)
    (IS_VECTORS' : bool) (w : world) :
  compute_slice_angles_and_anisotropy world path_exists
    vector_slice image eigen_slice center
    compute_fraction_anisotropy rotate_vectors_to_new_axis
    compute_helix_and_transverse_angles plot_images write_images
    write_vector_field
    z vector_field_slice img_slice center_point eigen_val_slice center_vec
    OUTPUT_DIR OUTPUT_FORMAT OUTPUT_TYPE start_index IS_VECTORS true w =
  compute_slice_angles_and_anisotropy world path_exists'
    vector_slice image eigen_slice center
    compute_fraction_anisotropy rotate_vectors_to_new_axis
    compute_helix_and_transverse_angles plot_images write_images'
    write_vector_field'
    z vector_field_slice img_slice center_point eigen_val_slice center_vec
    OUTPUT_DIR' OUTPUT_FORMAT' OUTPUT_TYPE' start_index' IS_VECTORS' true w.
Proof.
  unfold compute_slice_angles_and_anisotropy, bind.
  cbn [negb andb].
  destruct (compute_fraction_anisotropy eigen_val_slice w) as [img_FA w1].
  destruct (rotate_vectors_to_new_axis vector_field_slice center_vec w1)
    as [rotated w2].
  destruct (compute_helix_and_transverse_angles rotated center_point w2)
    as [[img_helix img_intrusion] w3].
  reflexivity.
Qed.

(** Outside test mode nothing is plotted, whether or not vectors are
    asked for, and without [IS_VECTORS] the vector field is not written:
    the outcome is the same whatever [plot_images] would do, and, when
    [IS_VECTORS] is false, whatever [write_vector_field] would do. *)
Theorem write_mode_plots_nothing
    (z : Z) (vector_field_slice : vector_slice) (img_slice : image)
    (center_point : center) (eigen_val_slice : eigen_slice)
    (center_vec : center)
    (OUTPUT_DIR OUTPUT_FORMAT OUTPUT_TYPE : string) (start_index : Z)
    (w : world) :
  (forall IS_VECTORS : bool,
     compute_slice_angles_and_anisotropy world path_exists
       vector_slice image eigen_slice center
       compute_fraction_anisotropy rotate_vectors_to_new_axis
       compute_helix_and_transverse_angles plot_images write_images
       write_vector_field
       z vector_field_slice img_slice center_point eigen_val_slice
       center_vec OUTPUT_DIR OUTPUT_FORMAT OUTPUT_TYPE start_index
       IS_VECTORS false w =
     compute_slice_angles_and_anisotropy world path_exists
       vector_slice image eigen_slice center
       compute_fraction_anisotropy rotate_vectors_to_new_axis
       compute_helix_and_transverse_angles plot_images' write_images
       write_vector_field
       z vector_field_slice img_slice center_point eigen_val_slice
       center_vec OUTPUT_DIR OUTPUT_FORMAT OUTPUT_TYPE start_index
       IS_VECTORS false w) /\
  compute_slice_angles_and_anisotropy world path_exists
    vector_slice image eigen_slice center
    compute_fraction_anisotropy rotate_vectors_to_new_axis
    compute_helix_and_transverse_angles plot_images write_images
    write_vector_field
    z vector_field_slice img_slice center_point eigen_val_slice center_vec
    OUTPUT_DIR OUTPUT_FORMAT OUTPUT_TYPE start_index false false w =
  compute_slice_angles_and_anisotropy world path_exists
    vector_slice image eigen_slice center
    compute_fraction_anisotropy rotate_vectors_to_new_axis
    compute_helix_and_transverse_angles plot_images' write_images
    write_vector_field'
    z vector_field_slice img_slice center_point eigen_val_slice center_vec
    OUTPUT_DIR OUTPUT_FORMAT OUTPUT_TYPE start_index false false w.
Proof.
  split; [intros IS_VECTORS|];
    unfold compute_slice_angles_and_anisotropy, bind;
    (destruct (negb false && forallb (path_exists w) _); [reflexivity|]);
    destruct (compute_fraction_anisotropy eigen_val_slice w)
      as [img_FA w1];
    destruct (rotate_vectors_to_new_axis vector_field_slice center_vec w1)
      as [rotated w2];
    destruct (compute_helix_and_transverse_angles rotated center_point w2)
      as [[img_helix img_intrusion] w3];
    reflexivity.
Qed.

(** ** [compute_orientation]: the resume test *)

Lemma scan_slices_forallb (w : world) (OUTPUT_DIR : string)
    (indices : list Z) (flag : bool) :
  scan_slices world path_exists w OUTPUT_DIR indices flag =
  forallb
    (fun idx => negb (slice_output_missing world path_exists w OUTPUT_DIR idx))
    indices && flag.
Proof.
  induction indices as [|idx rest IH]; simpl; [reflexivity|].
  destruct (slice_output_missing world path_exists w OUTPUT_DIR idx);
    simpl; [reflexivity | exact IH].
Qed.

Lemma in_range_from (start stop idx : Z) :
  In idx (range_from start stop) <-> start <= idx < stop.
Proof.
  unfold range_from. rewrite in_map_iff. split.
  - intros (i & <- & Hi). apply in_seq in Hi. lia.
  - intros H. exists (Z.to_nat (idx - start)). split; [lia|].
    apply in_seq. lia.
Qed.

(** The run is reported as already done exactly when [end_index] is not 0
    and the four files (helix angle, intrusion angle, fractional
    anisotropy, eigenvectors) of every slice from [start_index] up to
    [end_index - 1] exist.  So the default [end_index = 0] is never done,
    and an empty window with [end_index <> 0] always is. *)
Theorem is_already_done_iff (w : world) (OUTPUT_DIR : string)
    (start_index end_index : Z) :
  is_already_done world path_exists w OUTPUT_DIR start_index end_index = true
  <->
  end_index <> 0 /\
  forall idx, start_index <= idx < end_index ->
    path_exists w (HA_path OUTPUT_DIR idx) = true /\
    path_exists w (IA_path OUTPUT_DIR idx) = true /\
    path_exists w (FA_path OUTPUT_DIR idx) = true /\
    path_exists w (eigen_vec_path OUTPUT_DIR idx) = true.
Proof.
  unfold is_already_done. rewrite scan_slices_forallb.
  rewrite andb_true_iff, forallb_forall.
  split.
  - intros [Hall Hend]. split.
    + intros E. apply Z.eqb_eq in E. now rewrite E in Hend.
    + intros idx Hidx. apply in_range_from in Hidx.
      specialize (Hall idx Hidx). unfold slice_output_missing in Hall.
      apply negb_true_iff in Hall.
      repeat (apply orb_false_iff in Hall as [Hall ?]).
      repeat split; now apply negb_false_iff.
  - intros [Hend Hall]. split.
    + intros idx Hidx. apply in_range_from in Hidx.
      destruct (Hall idx Hidx) as (H1 & H2 & H3 & H4).
      unfold slice_output_missing. now rewrite H1, H2, H3, H4.
    + apply Z.eqb_neq in Hend. now rewrite Hend.
Qed.

(** When the run is reported as already done, every slice of the window
    is one that [compute_slice_angles_and_anisotropy] would skip: the
    early return leaves out no slice that would have been computed. *)
Theorem already_done_slices_would_be_skipped
    (z : Z) (vector_field_slice : vector_slice) (img_slice : image)
    (center_point : center) (eigen_val_slice : eigen_slice)
    (center_vec : center)
    (OUTPUT_DIR OUTPUT_FORMAT OUTPUT_TYPE : string)
    (start_index end_index : Z) (IS_VECTORS : bool) (w : world) :
  returns_already_done world path_exists false w OUTPUT_DIR start_index
    end_index = true ->
  0 <= z -> start_index + z < end_index ->
  compute_slice_angles_and_anisotropy world path_exists
    vector_slice image eigen_slice center
    compute_fraction_anisotropy rotate_vectors_to_new_axis
    compute_helix_and_transverse_angles plot_images write_images
    write_vector_field
    z vector_field_slice img_slice center_point eigen_val_slice center_vec
    OUTPUT_DIR OUTPUT_FORMAT OUTPUT_TYPE start_index IS_VECTORS false w
  = (tt, w).
Proof.
  unfold returns_already_done, is_already_done. cbn [negb].
  rewrite scan_slices_forallb, andb_true_iff, forallb_forall.
  intros [Hall _] Hz Hlt.
  assert (Hin : In (start_index + z) (range_from start_index end_index))
    by (apply in_range_from; lia).
  specialize (Hall _ Hin). unfold slice_output_missing in Hall.
  apply negb_true_iff in Hall.
  repeat (apply orb_false_iff in Hall as [Hall ?]).
  unfold compute_slice_angles_and_anisotropy.
  cbn [negb andb forallb].
  repeat match goal with
         | H : negb _ = false |- _ => apply negb_false_iff in H; rewrite H
         end.
  reflexivity.
Qed.

End SliceModes.

Lemma already_done_slices_would_be_skipped_witness :
  compute_slice_angles_and_anisotropy (list string) listed
    unit unit unit unit
    (mark "compute_fraction_anisotropy" tt)
    (fun v _ => mark "rotate_vectors_to_new_axis" tt v)
    (fun v _ => mark "compute_helix_and_transverse_angles" (tt, tt) v)
    (fun _ _ _ _ => mark "plot_images" tt)
    (fun _ _ _ _ _ _ _ => mark "write_images" tt)
    (fun _ _ _ => mark "write_vector_field" tt)
    0 tt tt tt tt tt "out" "tif" "8bit" 5 true false slice_5_done
  = (tt, slice_5_done).
Proof.
  apply (already_done_slices_would_be_skipped (list string) listed
           unit unit unit unit
           (mark "compute_fraction_anisotropy" tt)
           (fun v _ => mark "rotate_vectors_to_new_axis" tt v)
           (fun v _ => mark "compute_helix_and_transverse_angles" (tt, tt) v)
           (fun _ _ _ _ => mark "plot_images" tt)
           (fun _ _ _ _ _ _ _ => mark "write_images" tt)
           (fun _ _ _ => mark "write_vector_field" tt)
           0 tt tt tt tt tt "out" "tif" "8bit" 5 6 true slice_5_done).
  - reflexivity.
  - lia.
  - lia.
Defined.

(** ** [compute_orientation]: the padding and the mask window *)

Local Open Scope Z_scope.

(** Outside test mode, for a window inside the volume and a non-negative
    [RHO], each padding is [ceil(RHO)] cut down to the slices there are
    before [start_index] and after [end_index]: the padded window
    [start_index - padding_start .. end_index + padding_end] stays inside
    the volume. *)
Theorem padding_keeps_window_in_volume (RHO : Q)
    (N_SLICE_TEST start_index end_index N_img : Z) :
  (0 <= RHO)%Q -> 0 <= start_index -> end_index <= N_img ->
  exists padding_start padding_end,
    padding RHO false N_SLICE_TEST start_index end_index N_img =
      Some (padding_start, padding_end) /\
    padding_start = Z.min (Qceiling RHO) start_index /\
    padding_end = Z.min (Qceiling RHO) (N_img - end_index) /\
    0 <= padding_start /\ 0 <= padding_end /\
    0 <= start_index - padding_start /\
    end_index + padding_end <= N_img.
Proof.
  intros HRHO Hs He.
  assert (Hc : 0 <= Qceiling RHO).
  { pose proof (Qceiling_resp_le 0 RHO HRHO) as H.
    change (Qceiling 0) with 0 in H. exact H. }
  unfold padding. cbn [negb andb].
  eexists. eexists. split; [reflexivity|].
  destruct (Z.gtb_spec (Qceiling RHO) start_index);
    destruct (Z.gtb_spec (Qceiling RHO) (N_img - end_index)); lia.
Qed.

Lemma padding_keeps_window_in_volume_witness :
  exists padding_start padding_end,
    padding (5 # 2) false 0 2 7 8 = Some (padding_start, padding_end) /\
    padding_start = Z.min (Qceiling (5 # 2)) 2 /\
    padding_end = Z.min (Qceiling (5 # 2)) (8 - 7) /\
    0 <= padding_start /\ 0 <= padding_end /\
    0 <= 2 - padding_start /\
    7 + padding_end <= 8.
Proof.
  apply (padding_keeps_window_in_volume (5 # 2) 0 2 7 8).
  - discriminate.
  - lia.
  - lia.
Defined.

Lemma py_int_nonneg (x : Q) : (0 <= x)%Q -> py_int x = Qfloor x.
Proof.
  destruct x as [n d]. unfold Qle, py_int, Qfloor. simpl. intros H.
  apply Z.quot_div_nonneg; lia.
Qed.

Lemma py_int_nonpos (x : Q) : (x <= 0)%Q -> py_int x = Qceiling x.
Proof.
  destruct x as [n d]. unfold Qle, py_int, Qceiling, Qfloor. simpl.
  intros H.
  rewrite <- Z.quot_div_nonneg by lia.
  rewrite Z.quot_opp_l by lia. lia.
Qed.

(** [int()] of a number that is at least 0: the integer part, not
    negative, within 1 below the number. *)
Lemma py_int_floor (x : Q) :
  (0 <= x)%Q ->
  0 <= py_int x /\ (inject_Z (py_int x) <= x)%Q /\
  (x < inject_Z (py_int x) + 1)%Q.
Proof.
  intros H. rewrite (py_int_nonneg x H). split; [|split].
  - pose proof (Qfloor_resp_le 0 x H) as H0.
    change (Qfloor 0) with 0 in H0. exact H0.
  - apply Qfloor_le.
  - pose proof (Qlt_floor x) as Hl. now rewrite inject_Z_plus in Hl.
Qed.

(** [int()] of a number below 0 is not positive. *)
Lemma py_int_neg (x : Q) : (x < 0)%Q -> py_int x <= 0.
Proof.
  intros H. rewrite (py_int_nonpos x) by now apply Qlt_le_weak.
  pose proof (Qceiling_lt x) as Hl.
  assert (Hq : (inject_Z (Qceiling x - 1) < inject_Z 0)%Q).
  { eapply Qlt_trans; [exact Hl | exact H]. }
  rewrite <- Zlt_Qlt in Hq. lia.
Qed.

(** With a mask of [N_mask >= 1] images and a window
    [0 <= start_index_padded <= end_index_padded <= N_img], the mask
    slices loaded are an interval of the mask that is not empty, their
    upscaled extent covers the window of the volume, the offset of the
    volume in the upscaled mask is not negative, and the volume fits
    behind it. *)
Theorem mask_window_covers_volume_window
    (N_img N_mask start_index_padded end_index_padded : Z) :
  0 < N_mask -> 0 < N_img ->
  0 <= start_index_padded -> start_index_padded <= end_index_padded ->
  end_index_padded <= N_img ->
  let binning_factor := (inject_Z N_img / inject_Z N_mask)%Q in
  exists start_mask end_mask start_upscaled,
    mask_window N_img N_mask start_index_padded end_index_padded =
      (start_mask, end_mask, start_upscaled) /\
    0 <= start_mask /\ start_mask < end_mask /\ end_mask <= N_mask /\
    (inject_Z start_mask * binning_factor <= inject_Z start_index_padded)%Q /\
    (inject_Z end_index_padded <= inject_Z end_mask * binning_factor)%Q /\
    0 <= start_upscaled /\
    (inject_Z start_upscaled +
     inject_Z (end_index_padded - start_index_padded) <=
     inject_Z (end_mask - start_mask) * binning_factor)%Q.
Proof.
  intros Hm Hi Hsp Hse Hep bf.
  assert (HmQ : (0 < inject_Z N_mask)%Q)
    by (change 0%Q with (inject_Z 0); now rewrite <- Zlt_Qlt).
  assert (HiQ : (0 < inject_Z N_img)%Q)
    by (change 0%Q with (inject_Z 0); now rewrite <- Zlt_Qlt).
  assert (Hbf : (0 < bf)%Q).
  { unfold bf. apply Qlt_shift_div_l; [exact HmQ|].
    now rewrite Qmult_0_l. }
  assert (Hbf0 : ~ (bf == 0)%Q) by (intros E; rewrite E in Hbf; discriminate).
  assert (Hm0 : ~ (inject_Z N_mask == 0)%Q)
    by (intros E; rewrite E in HmQ; discriminate).
  assert (Hi0 : ~ (inject_Z N_img == 0)%Q)
    by (intros E; rewrite E in HiQ; discriminate).
  unfold mask_window. fold bf. cbv zeta.
  set (a := (inject_Z start_index_padded / bf)%Q).
  set (b := (inject_Z end_index_padded / bf)%Q).
  assert (Ha : (a * bf == inject_Z start_index_padded)%Q)
    by (unfold a; field; exact Hbf0).
  assert (Hb : (b * bf == inject_Z end_index_padded)%Q)
    by (unfold b; field; exact Hbf0).
  assert (HN : (inject_Z N_mask * bf == inject_Z N_img)%Q)
    by (unfold bf; field; exact Hm0).
  assert (Ha0 : (0 <= a)%Q).
  { apply (Qmult_le_r _ _ bf Hbf). rewrite Ha, Qmult_0_l.
    change 0%Q with (inject_Z 0). now rewrite <- Zle_Qle. }
  assert (Hab : (a <= b)%Q).
  { apply (Qmult_le_r _ _ bf Hbf). rewrite Ha, Hb. now rewrite <- Zle_Qle. }
  assert (HbN : (b <= inject_Z N_mask)%Q).
  { apply (Qmult_le_r _ _ bf Hbf). rewrite Hb, HN. now rewrite <- Zle_Qle. }
  set (sm0 := py_int (a - 1)%Q).
  set (em0 := py_int (b + 1)%Q).
  set (sm := if sm0 <? 0 then 0 else sm0).
  set (em := if em0 >? N_mask then N_mask else em0).
  (* the first mask slice *)
  assert (Hsm : 0 <= sm /\ (inject_Z sm <= a)%Q /\
                (sm = 0 \/ (inject_Z sm <= a - 1)%Q)).
  { destruct (Qlt_le_dec (a - 1) 0) as [Hneg | Hpos].
    - pose proof (py_int_neg _ Hneg) as Hle. fold sm0 in Hle.
      assert (E : sm = 0).
      { unfold sm. destruct (Z.ltb_spec sm0 0); [reflexivity | lia]. }
      rewrite E. split; [lia|]. split; [exact Ha0 | now left].
    - destruct (py_int_floor _ Hpos) as (H0 & Hle & _). fold sm0 in H0, Hle.
      assert (E : sm = sm0).
      { unfold sm. destruct (Z.ltb_spec sm0 0); [lia | reflexivity]. }
      rewrite E. split; [exact H0|]. split; [Lqa.lra | now right]. }
  destruct Hsm as (Hsm0 & Hsma & Hsm1).
  (* the last mask slice *)
  assert (Hb1 : (0 <= b + 1)%Q) by Lqa.lra.
  destruct (py_int_floor _ Hb1) as (_ & Hem0le & Hem0lt). fold em0 in Hem0le, Hem0lt.
  assert (Hem : em <= N_mask /\ (b <= inject_Z em)%Q).
  { unfold em. destruct (Z.gtb_spec em0 N_mask) as [Hgt | Hle].
    - split; [lia | exact HbN].
    - split; [exact Hle | Lqa.lra]. }
  destruct Hem as (HemN & Hemb).
  assert (Hem1 : 1 <= em).
  { assert (H1 : 1 <= em0).
    { unfold em0. rewrite (py_int_nonneg _ Hb1).
      assert (Hone : (1 <= b + 1)%Q) by Lqa.lra.
      pose proof (Qfloor_resp_le 1 (b + 1) Hone) as H.
      change (Qfloor 1) with 1 in H. exact H. }
    unfold em. destruct (Z.gtb_spec em0 N_mask); lia. }
  assert (Hlt : sm < em).
  { destruct Hsm1 as [E | Hle]; [lia|].
    rewrite Zlt_Qlt. Lqa.lra. }
  assert (Hcov1 : (inject_Z sm * bf <= inject_Z start_index_padded)%Q).
  { rewrite <- Ha. now apply (Qmult_le_r _ _ bf Hbf). }
  assert (Hcov2 : (inject_Z end_index_padded <= inject_Z em * bf)%Q).
  { rewrite <- Hb. now apply (Qmult_le_r _ _ bf Hbf). }
  (* the offset in the upscaled mask *)
  set (d := (inject_Z sm * bf - inject_Z start_index_padded)%Q).
  assert (Hd : (Qabs d == - d)%Q) by (apply Qabs_neg; unfold d; Lqa.lra).
  destruct (py_int_floor _ (Qabs_nonneg d)) as (Hsu0 & Hsule & _).
  exists sm, em, (py_int (Qabs d)).
  split; [reflexivity|].
  split; [exact Hsm0|]. split; [exact Hlt|]. split; [exact HemN|].
  split; [exact Hcov1|]. split; [exact Hcov2|]. split; [exact Hsu0|].
  assert (Hdd : (d == inject_Z sm * bf - inject_Z start_index_padded)%Q)
    by reflexivity.
  unfold Z.sub. rewrite !inject_Z_plus, !inject_Z_opp.
  clearbody d sm em bf. Lqa.lra.
Qed.

Lemma mask_window_covers_volume_window_witness :
  let binning_factor := (inject_Z 10 / inject_Z 5)%Q in
  exists start_mask end_mask start_upscaled,
    mask_window 10 5 3 8 = (start_mask, end_mask, start_upscaled) /\
    0 <= start_mask /\ start_mask < end_mask /\ end_mask <= 5 /\
    (inject_Z start_mask * binning_factor <= inject_Z 3)%Q /\
    (inject_Z 8 <= inject_Z end_mask * binning_factor)%Q /\
    0 <= start_upscaled /\
    (inject_Z start_upscaled + inject_Z (8 - 3) <=
     inject_Z (end_mask - start_mask) * binning_factor)%Q.
Proof.
  apply (mask_window_covers_volume_window 10 5 3 8); lia.
Defined.

(** ** The angle test of the tracer *)

Local Open Scope Z_scope.

Lemma angle_exceeds_180 (a b : point) (thr : Q) :
  (180 <= thr)%Q -> angle_exceeds a b thr = false.
Proof.
  intros H. unfold angle_exceeds.
  destruct (Rlt_dec _ _) as [Hlt|]; [|reflexivity].
  exfalso. apply Qle_Rle in H.
  assert (H180 : Q2R 180 = 180%R) by (unfold Q2R; simpl; lra).
  rewrite H180 in H.
  pose proof (angle_bounds (to_rvec a) (to_rvec b)) as [_ Hb]. lra.
Qed.

(** An angle threshold of 180 degrees or more switches the angle test
    off: no angle exceeds it, so the polyline is the same for every such
    threshold. *)
Theorem angle_threshold_180_never_stops seed vf num_steps s (thr thr' : Q) :
  (180 <= thr)%Q -> (180 <= thr')%Q ->
  find_consecutive_points seed vf num_steps s thr =
  find_consecutive_points seed vf num_steps s thr'.
Proof.
  intros H H'.
  assert (Hstop : forall t tmp dv, (180 <= t)%Q -> angle_stop tmp dv t = false).
  { intros t tmp dv Ht. unfold angle_stop.
    destruct tmp as [tmp|]; [|now rewrite andb_false_r].
    now rewrite angle_exceeds_180, andb_false_r. }
  assert (Hstep : forall st, trace_step vf s thr st = trace_step vf s thr' st).
  { intros st. unfold trace_step.
    destruct (in_bounds vf (round_point (current_point st))); [|reflexivity].
    destruct (defined _) as [dv|]; [|reflexivity].
    now rewrite (Hstop thr), (Hstop thr'). }
  unfold find_consecutive_points. f_equal.
  generalize (initial_state seed).
  induction num_steps as [|n IH]; intros st; simpl; [reflexivity|].
  rewrite <- Hstep. destruct (trace_step vf s thr st); [apply IH | reflexivity].
Qed.

Lemma angle_threshold_180_never_stops_witness :
  find_consecutive_points (0, 0, 4) row_field 3 1 180 =
  find_consecutive_points (0, 0, 4) row_field 3 1 360.
Proof.
  apply (angle_threshold_180_never_stops (0, 0, 4) row_field 3%nat 1%Q
           180%Q 360%Q); discriminate.
Defined.
